(** * Grammar scoring from voice samples: the scoring core

    A shallow embedding of [app/scoring.py] and [app/text_features.py].

    Numbers.  Python [int] is [Z].  Python [float] is read in two ways.

    The exact reading ([Py], [Scoring]) takes the floats for the rationals
    [Q] and the arithmetic of the source for exact arithmetic.  It is used
    for the shape of the functions: order, bounds, symmetry, invariance.
    Rounding error, infinities, NaN and the range of the conversion from
    [int] to [float] are outside it, and two rationals are the same number
    when they are related by [==] ([Qeq]).

    The binary64 reading ([B64], [Scoring64], and the rate and the average
    of [TextFeatures]) takes the floats for the IEEE 754 double precision
    numbers of the Standard Library's [spec_float], every operation rounded
    to nearest, ties to even, and the conversions from [int] raising
    [OverflowError] outside the range of the floats.  It is used where the
    digits of a result or the range of the floats decide: the formula and
    the values of the final score, the values of [words_per_minute], and
    which inputs make a function raise.

    Errors.  The operations of the numeric code that can raise are the
    division [/], which raises [ZeroDivisionError] on a zero divisor, and,
    in the binary64 reading, the conversion of an [int] to a float and the
    division of two [int]s, which raise [OverflowError].  [re.sub] raises
    [re.error] on a template that refers to a group the pattern does not
    have.  Functions that divide or substitute live in the [result] monad.

    Layout.  The embedding of the source comes first ([Py], [B64], [Chars],
    [Str], [Scoring], [Re], [TextFeatures], [Scoring64]), then the formulas
    of the specification ([Spec64], [Spec]) and the auxiliary functions of
    the proofs ([Passes]), then the facts. *)

From Stdlib Require Import ZArith QArith Qround Qminmax Lqa Lia Bool List.
From Stdlib Require Import Ascii String.
From Stdlib Require Import SpecFloat.
Import ListNotations.

(** ** Exceptions and the result monad *)

Inductive exn : Type :=
| ZeroDivisionError
| Exception (msg : string).

Inductive result (A : Type) : Type :=
| Ok (a : A)
| Raise (e : exn).

Arguments Ok {A} a.
Arguments Raise {A} e.

Definition bind {A B : Type} (m : result A) (k : A -> result B) : result B :=
  match m with
  | Ok a => k a
  | Raise e => Raise e
  end.

Notation "x <- m ;; k" := (bind m (fun x => k))
  (at level 61, m at next level, right associativity).

(** [m] returns a value, and the value satisfies [P]. *)
Definition returns {A : Type} (m : result A) (P : A -> Prop) : Prop :=
  exists a, m = Ok a /\ P a.

(** ** Python arithmetic on floats, read over [Q] *)

Module Py.

Open Scope Q_scope.

Definition ltb (a b : Q) : bool := negb (Qle_bool b a).
Definition leb (a b : Q) : bool := Qle_bool a b.

(** [a / b]: raises on a zero divisor. *)
Definition div (a b : Q) : result Q :=
  if Qeq_bool b 0 then Raise ZeroDivisionError else Ok (a / b).

(** The builtins [min(a, b)] and [max(a, b)]: the first argument is kept
    unless the second is strictly smaller (larger). *)
Definition min (a b : Q) : Q := if ltb b a then b else a.
Definition max (a b : Q) : Q := if ltb a b then b else a.

(** Round to the nearest integer, ties to the even one. *)
Definition round_half_even (q : Q) : Z :=
  let f := Qfloor q in
  match Qcompare (q - inject_Z f) (1 # 2) with
  | Lt => f
  | Gt => (f + 1)%Z
  | Eq => if Z.even f then f else (f + 1)%Z
  end.

(** [round(x, ndigits)] for [ndigits >= 0]. *)
Definition round (x : Q) (ndigits : nat) : Q :=
  let p := inject_Z (10 ^ Z.of_nat ndigits) in
  inject_Z (round_half_even (x * p)) / p.

(** [sum(l)] on a list of ints. *)
Definition sum (l : list Z) : Z := fold_left Z.add l 0%Z.

(** [min(l)] and [max(l)] on a list of ints: [ValueError] on an empty
    list. *)
Definition min_list (l : list Z) : result Z :=
  match l with
  | [] => Raise (Exception "min() arg is an empty sequence")
  | x :: l' => Ok (fold_left Z.min l' x)
  end.

Definition max_list (l : list Z) : result Z :=
  match l with
  | [] => Raise (Exception "max() arg is an empty sequence")
  | x :: l' => Ok (fold_left Z.max l' x)
  end.

End Py.

(** ** Python floats, bit for bit

    IEEE 754 binary64 on the Standard Library's [spec_float]: every
    operation rounds to nearest, ties to even, as the hardware does. *)

Module B64.

Definition prec : Z := 53.
Definition emax : Z := 1024.

Definition float : Type := spec_float.

Definition add : float -> float -> float := SFadd prec emax.
Definition sub : float -> float -> float := SFsub prec emax.
Definition mul : float -> float -> float := SFmul prec emax.
Definition div : float -> float -> float := SFdiv prec emax.
Definition ltb : float -> float -> bool := SFltb.
Definition leb : float -> float -> bool := SFleb.

Definition is_nan (x : float) : bool :=
  match x with
  | S754_nan => true
  | _ => false
  end.

Definition is_zero (x : float) : bool :=
  match x with
  | S754_zero _ => true
  | _ => false
  end.

(** The float nearest to the quotient [n / d] of two positive integers,
    with sign [s]. *)
Definition ratio (s : bool) (n d : positive) : float :=
  let '(q, e, l) := SFdiv_core_binary prec emax (Zpos n) 0 (Zpos d) 0 in
  binary_round_aux prec emax s q e l.

(** The float a decimal literal denotes: [lit 35 100] is [0.35]. *)
Definition lit (n : Z) (d : positive) : float :=
  match n with
  | Z0 => S754_zero false
  | Zpos p => ratio false p d
  | Zneg p => ratio true p d
  end.

(** [OverflowError], an [Exception] with its message. *)
Definition OverflowError (msg : string) : exn := Exception msg.

(** The integers from [overflow_bound] on round to [2 ** 1024], which no
    float holds. *)
Definition overflow_bound : Z := 2 ^ 1024 - 2 ^ 970.

(** The float nearest to an integer. *)
Definition nearest (n : Z) : float := binary_normalize prec emax n 0 false.

(** [float(n)], the conversion applied to an [int] operand of a float
    operation. *)
Definition of_int (n : Z) : result float :=
  if (overflow_bound <=? Z.abs n)%Z
  then Raise (OverflowError "int too large to convert to float")
  else Ok (nearest n).

(** [a / b] on two ints: the float nearest to the quotient. *)
Definition int_truediv (a b : Z) : result float :=
  if (b =? 0)%Z then Raise ZeroDivisionError
  else
    let s := xorb (a <? 0)%Z (b <? 0)%Z in
    match Z.abs a, Z.abs b with
    | Zpos p, Zpos q =>
        if (overflow_bound * Zpos q <=? Zpos p)%Z
        then Raise (OverflowError "integer division result too large for a float")
        else Ok (ratio s p q)
    | _, _ => Ok (S754_zero s)
    end.

(** [x / y] on two floats. *)
Definition truediv (x y : float) : result float :=
  if is_zero y then Raise ZeroDivisionError else Ok (div x y).

(** The builtins [min(a, b)] and [max(a, b)]. *)
Definition min (a b : float) : float := if ltb b a then b else a.
Definition max (a b : float) : float := if ltb a b then b else a.

(** [lo <= x <= hi]. *)
Definition between (lo hi x : float) : Prop := leb lo x = true /\ leb x hi = true.

(** The exact value of a finite float. *)
Definition to_Q (x : float) : Q :=
  match x with
  | S754_finite s m e =>
      let v := match e with
               | Zneg p => Zpos m # Pos.pow 2 p
               | _ => inject_Z (Zpos m * 2 ^ e)
               end in
      if s then Qopp v else v
  | _ => 0%Q
  end.

(** [round(x, ndigits)] for [ndigits >= 0]: the exact value of [x] is
    rounded to [ndigits] decimals, ties to even, and the float nearest to
    that decimal is returned; zeros keep their sign, infinities and NaN are
    returned as they are. *)
Definition round (x : float) (ndigits : nat) : float :=
  match x with
  | S754_finite s _ _ =>
      let p := Z.to_pos (10 ^ Z.of_nat ndigits) in
      match Py.round_half_even (to_Q x * inject_Z (Zpos p)) with
      | Z0 => S754_zero s
      | Zpos k => ratio false k p
      | Zneg k => ratio true k p
      end
  | _ => x
  end.

End B64.

(** ** Python strings

    A [str] is the list of its characters.  A character is a code point
    below 256 (Latin-1, which contains ASCII), carried by [ascii]; text
    with other code points is outside the model.  The three tables below
    are Python's for that range. *)

Definition str : Type := list ascii.

Definition pystr (s : string) : str := list_ascii_of_string s.

Module Chars.

Definition code (c : ascii) : N := N_of_ascii c.

Definition between (lo hi : N) (c : ascii) : bool :=
  ((lo <=? code c) && (code c <=? hi))%N.

(** [str.isspace], which is also the class [\s] of [re]. *)
Definition isspace (c : ascii) : bool :=
  between 9 13 c || between 28 32 c || (code c =? 133)%N || (code c =? 160)%N.

(** The class [\w] of [re]: alphanumeric or underscore. *)
Definition isword (c : ascii) : bool :=
  between 48 57 c || between 65 90 c || (code c =? 95)%N || between 97 122 c
  || (code c =? 170)%N || between 178 179 c || (code c =? 181)%N
  || between 185 186 c || between 188 190 c
  || between 192 214 c || between 216 246 c || between 248 255 c.

(** [str.lower] on one character. *)
Definition lower (c : ascii) : ascii :=
  if between 65 90 c || between 192 214 c || between 216 222 c
  then ascii_of_N (code c + 32)
  else c.

End Chars.

Module Str.

Definition lower (s : str) : str := map Chars.lower s.

Fixpoint lstrip (s : str) : str :=
  match s with
  | c :: s' => if Chars.isspace c then lstrip s' else s
  | [] => []
  end.

Definition rstrip (s : str) : str := rev (lstrip (rev s)).

Definition strip (s : str) : str := rstrip (lstrip s).

(** Truth value of a string: [not s] holds of the empty string only. *)
Definition falsy (s : str) : bool :=
  match s with
  | [] => true
  | _ :: _ => false
  end.

(** [s.split()]: the maximal runs of non-whitespace characters, in order.
    [cur] is the run being read. *)
Fixpoint split_from (cur : str) (s : str) : list str :=
  match s with
  | [] => match cur with [] => [] | _ :: _ => [cur] end
  | c :: s' =>
      if Chars.isspace c
      then match cur with
           | [] => split_from [] s'
           | _ :: _ => cur :: split_from [] s'
           end
      else split_from (cur ++ [c]) s'
  end.

Definition split (s : str) : list str := split_from [] s.

(** [sep.join(parts)] *)
Fixpoint join (sep : str) (parts : list str) : str :=
  match parts with
  | [] => []
  | p :: rest =>
      match rest with
      | [] => p
      | _ :: _ => p ++ sep ++ join sep rest
      end
  end.

End Str.

(** ** [app/scoring.py] *)

Module Scoring.

Open Scope Q_scope.

Definition MAX_GRAMMAR_ERRORS_PER_100 : Q := 12.0.
Definition MIN_GRAMMAR_ERRORS_PER_100 : Q := 0.0.
Definition MAX_FILLERS_PER_100 : Q := 8.0.
Definition MIN_FILLERS_PER_100 : Q := 0.0.
Definition MAX_WER : Q := 0.35.
Definition MIN_WER : Q := 0.0.
Definition IDEAL_WPM_MIN : Q := 110.0.
Definition IDEAL_WPM_MAX : Q := 170.0.
Definition VERY_SLOW_WPM : Q := 60.0.
Definition VERY_FAST_WPM : Q := 220.0.
Definition WEIGHT_GRAMMAR : Q := 0.35.
Definition WEIGHT_FILLERS : Q := 0.25.
Definition WEIGHT_WER : Q := 0.20.
Definition WEIGHT_FLUENCY : Q := 0.20.

Definition clamp_01 (x : Q) : Q := Py.max 0.0 (Py.min 1.0 x).

Definition normalize_grammar_errors (error_count word_count : Z) : result Q :=
  if (word_count <=? 0)%Z then Ok 0.0
  else
    r <- Py.div (inject_Z error_count) (inject_Z word_count) ;;
    let ger := r * 100.0 in
    penalty <- Py.div ger MAX_GRAMMAR_ERRORS_PER_100 ;;
    Ok (clamp_01 penalty).

Definition normalize_fillers (filler_count word_count : Z) : result Q :=
  if (word_count <=? 0)%Z then Ok 0.0
  else
    r <- Py.div (inject_Z filler_count) (inject_Z word_count) ;;
    let filler_rate := r * 100.0 in
    penalty <- Py.div filler_rate MAX_FILLERS_PER_100 ;;
    Ok (clamp_01 penalty).

Definition normalize_wer (wer : option Q) : result Q :=
  match wer with
  | None => Ok 0.0
  | Some wer =>
      if Py.ltb wer 0 then Ok 0.0
      else
        penalty <- Py.div wer MAX_WER ;;
        Ok (clamp_01 penalty)
  end.

Definition fluency_penalty (wpm : option Q) : result Q :=
  match wpm with
  | None => Ok 0.0
  | Some wpm =>
      if Py.leb wpm 0 then Ok 0.0
      else if Py.leb IDEAL_WPM_MIN wpm && Py.leb wpm IDEAL_WPM_MAX then Ok 0.0
      else if Py.ltb wpm IDEAL_WPM_MIN then
        let distance := IDEAL_WPM_MIN - wpm in
        let max_distance := IDEAL_WPM_MIN - VERY_SLOW_WPM in
        penalty <- Py.div distance max_distance ;;
        Ok (clamp_01 penalty)
      else if Py.ltb IDEAL_WPM_MAX wpm then
        let distance := wpm - IDEAL_WPM_MAX in
        let max_distance := VERY_FAST_WPM - IDEAL_WPM_MAX in
        penalty <- Py.div distance max_distance ;;
        Ok (clamp_01 penalty)
      else Ok 0.0
  end.

Definition calculate_final_score
    (grammar_penalty filler_penalty wer_penalty fluency_pen : Q) : Q :=
  let total_penalty :=
    grammar_penalty * WEIGHT_GRAMMAR +
    filler_penalty * WEIGHT_FILLERS +
    wer_penalty * WEIGHT_WER +
    fluency_pen * WEIGHT_FLUENCY in
  let score := 100.0 - (total_penalty * 100.0) in
  let score := Py.max 0.0 (Py.min 100.0 score) in
  Py.round score 2.

(** [str()] of a float, as the f-string applies it, prints digits that
    depend on the binary representation of the float, which the rational
    model does not have: the printer is a parameter. *)
Section Explanation.

Variable float_str : Q -> str.

Definition generate_score_explanation
    (grammar_penalty filler_penalty wer_penalty fluency_pen final : Q) : str :=
  let grammar_deduction := Py.round (grammar_penalty * WEIGHT_GRAMMAR * 100) 1 in
  let filler_deduction := Py.round (filler_penalty * WEIGHT_FILLERS * 100) 1 in
  let wer_deduction := Py.round (wer_penalty * WEIGHT_WER * 100) 1 in
  let fluency_deduction := Py.round (fluency_pen * WEIGHT_FLUENCY * 100) 1 in
  let explanation :=
    (pystr "Score: " ++ float_str final ++ pystr "/100 | " ++
     pystr "Grammar: -" ++ float_str grammar_deduction ++ pystr " pts | " ++
     pystr "Fillers: -" ++ float_str filler_deduction ++ pystr " pts | " ++
     pystr "WER: -" ++ float_str wer_deduction ++ pystr " pts | " ++
     pystr "Fluency: -" ++ float_str fluency_deduction ++ pystr " pts")%list in
  explanation.

End Explanation.

End Scoring.

(** ** The fragment of [re] the source uses

    Patterns are sequences of: one character of a class, a greedy [+] on a
    class, a capturing group around a class, and the word boundary [\b].
    Matching is by backtracking, as in [re]: [+] first takes as many
    characters as it can and gives them back one at a time. *)

Module Re.

Inductive cls : Type :=
| Lit (c : ascii)          (* a literal character *)
| Space                    (* \s *)
| OneOf (cs : str).        (* [...] *)

Inductive item : Type :=
| Chr (k : cls)
| Plus (k : cls)           (* k+ *)
| Group (k : cls)          (* (k) *)
| WordB.                   (* \b *)

Definition pattern : Type := list item.

Definition chr_eq (ignorecase : bool) (c d : ascii) : bool :=
  if ignorecase then Ascii.eqb (Chars.lower c) (Chars.lower d)
  else Ascii.eqb c d.

Definition cls_match (ignorecase : bool) (k : cls) (c : ascii) : bool :=
  match k with
  | Lit d => chr_eq ignorecase c d
  | Space => Chars.isspace c
  | OneOf cs => existsb (chr_eq ignorecase c) cs
  end.

Definition isword_opt (c : option ascii) : bool :=
  match c with
  | Some c => Chars.isword c
  | None => false
  end.

(** [\b] holds between [prev] and the head of [s] when exactly one of them
    is a word character; the ends of the text count as non-word. *)
Definition word_boundary (prev : option ascii) (s : str) : bool :=
  xorb (isword_opt prev) (isword_opt (hd_error s)).

(** A match: the text it covers and the text of its groups, in order. *)
Definition hit : Type := (str * list str)%type.

Definition consume (c : ascii) (r : option hit) : option hit :=
  match r with
  | Some (m, gs) => Some (c :: m, gs)
  | None => None
  end.

Definition capture (c : ascii) (r : option hit) : option hit :=
  match r with
  | Some (m, gs) => Some (c :: m, [c] :: gs)
  | None => None
  end.

(** Match [re] at the start of [s]; [prev] is the character before [s]. *)
Fixpoint match_here (ignorecase : bool) (re : pattern)
    : option ascii -> str -> option hit :=
  match re with
  | [] => fun _ _ => Some ([], [])
  | WordB :: re' => fun prev s =>
      if word_boundary prev s then match_here ignorecase re' prev s else None
  | Chr k :: re' => fun _ s =>
      match s with
      | c :: s' =>
          if cls_match ignorecase k c
          then consume c (match_here ignorecase re' (Some c) s')
          else None
      | [] => None
      end
  | Group k :: re' => fun _ s =>
      match s with
      | c :: s' =>
          if cls_match ignorecase k c
          then capture c (match_here ignorecase re' (Some c) s')
          else None
      | [] => None
      end
  | Plus k :: re' =>
      fix plus (prev : option ascii) (s : str) {struct s} : option hit :=
        match s with
        | c :: s' =>
            if cls_match ignorecase k c
            then match plus (Some c) s' with
                 | Some r => consume c (Some r)
                 | None => consume c (match_here ignorecase re' (Some c) s')
                 end
            else None
        | [] => None
        end
  end.

(** The scan shared by [findall] and [sub]: the text cut into the
    characters no match covers and the matches, leftmost first and not
    overlapping.  [skip] counts the characters of [s] the previous match
    still covers.  No pattern of the source matches the empty string; an
    empty match is passed over like a failure. *)
Inductive piece : Type :=
| Text (c : ascii)
| Hit (h : hit).

Fixpoint scan (ignorecase : bool) (re : pattern)
    (prev : option ascii) (s : str) (skip : nat) : list piece :=
  match s with
  | [] => []
  | c :: s' =>
      match skip with
      | S k => scan ignorecase re (Some c) s' k
      | O =>
          match match_here ignorecase re prev s with
          | Some (_ :: m, gs) =>
              Hit (c :: m, gs) :: scan ignorecase re (Some c) s' (List.length m)
          | _ => Text c :: scan ignorecase re (Some c) s' 0
          end
      end
  end.

(** [re.findall(pattern, text)] for a pattern without groups. *)
Definition findall (ignorecase : bool) (re : pattern) (text : str) : list str :=
  flat_map (fun p => match p with Hit (m, _) => [m] | Text _ => [] end)
           (scan ignorecase re None text 0).

(** Replacement templates: literal text and group references [\n]. *)
Inductive tpl : Type :=
| TLit (s : str)
| TGroup (n : nat).

Definition ngroups (re : pattern) : nat :=
  List.length (filter (fun i => match i with Group _ => true | _ => false end) re).

Definition tpl_ok (re : pattern) (t : tpl) : bool :=
  match t with
  | TLit _ => true
  | TGroup n => (1 <=? n)%nat && (n <=? ngroups re)%nat
  end.

Definition expand (repl : list tpl) (h : hit) : str :=
  flat_map (fun t => match t with
                     | TLit s => s
                     | TGroup n => nth (pred n) (snd h) []
                     end) repl.

Definition render (repl : list tpl) (ps : list piece) : str :=
  flat_map (fun p => match p with
                     | Hit h => expand repl h
                     | Text c => [c]
                     end) ps.

(** [re.sub(pattern, repl, text)]; a template that refers to a group the
    pattern does not have is refused with [re.error]. *)
Definition sub (ignorecase : bool) (re : pattern) (repl : list tpl)
    (text : str) : result str :=
  if forallb (tpl_ok re) repl
  then Ok (render repl (scan ignorecase re None text 0))
  else Raise (Exception "invalid group reference").

(** [re.split(pattern, text)]: the text between the matches; the text of
    the groups of a match, if any, comes after the part that match ends. *)
Fixpoint split_pieces (cur : str) (ps : list piece) : list str :=
  match ps with
  | [] => [cur]
  | Text c :: ps' => split_pieces (cur ++ [c]) ps'
  | Hit (_, gs) :: ps' => cur :: gs ++ split_pieces [] ps'
  end.

Definition split (ignorecase : bool) (re : pattern) (text : str) : list str :=
  split_pieces [] (scan ignorecase re None text 0).

End Re.

(** ** [app/text_features.py] *)

Module TextFeatures.

Import Re.

(** Pattern source text: [lit "ab"] is [ab], [plus "m"] is [m+],
    [b] is [\b]. *)
Definition lit (s : string) : pattern := map (fun c => Chr (Lit c)) (pystr s).
Definition plus (c : ascii) : pattern := [Plus (Lit c)].
Definition b : pattern := [WordB].

Definition filler_patterns : list pattern := [
  (* Multi-word fillers *)
  b ++ lit "you know" ++ b;
  b ++ lit "i mean" ++ b;
  b ++ lit "kind of" ++ b;
  b ++ lit "kinda" ++ b;
  b ++ lit "sort of" ++ b;
  b ++ lit "sorta" ++ b;
  b ++ lit "you see" ++ b;
  b ++ lit "let me see" ++ b;
  b ++ lit "let's see" ++ b;          (* \blet\'s see\b *)
  (* Single-word fillers *)
  b ++ lit "u" ++ plus "m" ++ b;      (* \bum+\b *)
  b ++ lit "u" ++ plus "h" ++ b;      (* \buh+\b *)
  b ++ lit "er" ++ plus "m" ++ b;     (* \berm+\b *)
  b ++ lit "hm" ++ plus "m" ++ b;     (* \bhmm+\b *)
  b ++ lit "a" ++ plus "h" ++ b;      (* \bah+\b *)
  b ++ lit "o" ++ plus "h" ++ b;      (* \boh+\b *)
  b ++ lit "like" ++ b;
  b ++ lit "basically" ++ b;
  b ++ lit "actually" ++ b;
  b ++ lit "literally" ++ b;
  b ++ lit "well" ++ b;
  b ++ lit "so" ++ b;
  b ++ lit "just" ++ b
].

(** [\s+] and [\s+([.,!?;:])] *)
Definition ws_run : pattern := [Plus Space].
Definition ws_before_punct : pattern := [Plus Space; Group (OneOf (pystr ".,!?;:"))].

(** [not text or not text.strip()] *)
Definition no_text (text : str) : bool :=
  Str.falsy text || Str.falsy (Str.strip text).

Definition filler_count (text : str) : result (Z * list str) :=
  if no_text text then Ok (0%Z, [])
  else
    normalized_text <-
      Re.sub false ws_run [TLit (pystr " ")] (Str.strip (Str.lower text)) ;;
    let detected_fillers :=
      fold_left (fun acc pattern => acc ++ Re.findall true pattern normalized_text)
                filler_patterns [] in
    Ok (Z.of_nat (List.length detected_fillers), detected_fillers).

Definition words_per_minute (word_count : Z) (duration_sec : B64.float)
    : result (option B64.float) :=
  if B64.leb duration_sec (B64.lit 0 1) then Ok None
  else if (word_count <? 0)%Z then Ok None
  else
    n <- B64.of_int word_count ;;
    r <- B64.truediv n duration_sec ;;
    let wpm := B64.mul r (B64.lit 60 1) in
    Ok (Some (B64.round wpm 2)).

Definition normalize_transcript (text : str) : result str :=
  if Str.falsy text then Ok []
  else
    text <- Re.sub false ws_run [TLit (pystr " ")] text ;;
    text <- Re.sub false ws_before_punct [TGroup 1] text ;;
    Ok (Str.strip text).

(** [[.!?]+] *)
Definition sentence_end : pattern := [Plus (OneOf (pystr ".!?"))].

(** The dictionary [sentence_stats] returns. *)
Record stats : Type := {
  sentence_count : Z;
  avg_sentence_length : B64.float;
  min_sentence_length : Z;
  max_sentence_length : Z
}.

Definition sentence_stats (text : str) : result stats :=
  if no_text text
  then Ok {| sentence_count := 0; avg_sentence_length := B64.lit 0 1;
             min_sentence_length := 0; max_sentence_length := 0 |}
  else
    let sentences := Re.split false sentence_end text in
    let sentences :=
      map Str.strip
          (filter (fun s => negb (Str.falsy (Str.strip s))) sentences) in
    match sentences with
    | [] =>
        Ok {| sentence_count := 0; avg_sentence_length := B64.lit 0 1;
              min_sentence_length := 0; max_sentence_length := 0 |}
    | _ :: _ =>
        let sentence_lengths :=
          map (fun s => Z.of_nat (List.length (Str.split s))) sentences in
        avg <- B64.int_truediv (Py.sum sentence_lengths)
                               (Z.of_nat (List.length sentence_lengths)) ;;
        shortest <- Py.min_list sentence_lengths ;;
        longest <- Py.max_list sentence_lengths ;;
        Ok {| sentence_count := Z.of_nat (List.length sentences);
              avg_sentence_length := B64.round avg 2;
              min_sentence_length := shortest;
              max_sentence_length := longest |}
    end.

(** *** [grammar_errors] and the grammar-checking engine

    The engine is outside the repository: its constructor
    [LanguageTool(language)] and its method [tool.check(text)] are taken as
    parameters, and either may raise.  The global [_language_tool] and the
    lines the function prints make up the state it threads. *)

(** A match of the engine, with the attributes the source reads. *)
Record lt_match : Type := {
  message : str;
  ruleId : str;
  context : str;
  offset : Z;
  errorLength : Z;
  replacements : list str
}.

(** The dictionary built for each match, with its keys [message],
    [rule_id], [context], [offset], [length] and [replacements]. *)
Record error_detail : Type := {
  d_message : str;
  d_rule_id : str;
  d_context : str;
  d_offset : Z;
  d_length : Z;
  d_replacements : list str
}.

Inductive printed : Type :=
| LoadedLanguageTool (language : str)
| GrammarCheckFailed (e : exn).

Section Engine.

Variable Tool : Type.
Variable LanguageTool : str -> result Tool.
Variable check : Tool -> str -> result (list lt_match).

Record world : Type := {
  _language_tool : option Tool;
  stdout : list printed
}.

Definition _get_language_tool (language : str) (w : world)
    : result Tool * world :=
  match _language_tool w with
  | None =>
      match LanguageTool language with
      | Ok t =>
          (Ok t, {| _language_tool := Some t;
                    stdout := stdout w ++ [LoadedLanguageTool language] |})
      | Raise e => (Raise e, w)
      end
  | Some t => (Ok t, w)
  end.

(** What the engine answers when it is asked to check [text] in the world
    [w]: the matches, or the exception it raises while it is built or while
    it checks. *)
Definition engine_answer (text language : str) (w : world)
    : result (list lt_match) :=
  tool <- fst (_get_language_tool language w) ;;
  check tool text.

Definition detail_of (m : lt_match) : error_detail :=
  {| d_message := message m;
     d_rule_id := ruleId m;
     d_context := context m;
     d_offset := offset m;
     d_length := errorLength m;
     d_replacements := firstn 3 (replacements m) |}.

Definition grammar_errors (text language : str) (w : world)
    : (Z * list error_detail) * world :=
  if no_text text then ((0%Z, []), w)
  else
    (* try: *)
    let (tool, w) := _get_language_tool language w in
    let attempt :=
      tool <- tool ;;
      matches <- check tool text ;;
      let error_details := map detail_of matches in
      Ok (Z.of_nat (List.length matches), error_details) in
    match attempt with
    | Ok r => (r, w)
    | Raise e =>
        (* except Exception as e: *)
        ((0%Z, []),
         {| _language_tool := _language_tool w;
            stdout := stdout w ++ [GrammarCheckFailed e] |})
    end.

End Engine.

Arguments _get_language_tool {Tool} LanguageTool language w.
Arguments engine_answer {Tool} LanguageTool check text language w.
Arguments grammar_errors {Tool} LanguageTool check text language w.

End TextFeatures.

(** ** [app/scoring.py], over binary64 *)

Module Scoring64.

Import B64.

Definition MAX_GRAMMAR_ERRORS_PER_100 : float := lit 12 1.
Definition MAX_FILLERS_PER_100 : float := lit 8 1.
Definition MAX_WER : float := lit 35 100.
Definition IDEAL_WPM_MIN : float := lit 110 1.
Definition IDEAL_WPM_MAX : float := lit 170 1.
Definition VERY_SLOW_WPM : float := lit 60 1.
Definition VERY_FAST_WPM : float := lit 220 1.
Definition WEIGHT_GRAMMAR : float := lit 35 100.
Definition WEIGHT_FILLERS : float := lit 25 100.
Definition WEIGHT_WER : float := lit 20 100.
Definition WEIGHT_FLUENCY : float := lit 20 100.

Definition clamp_01 (x : float) : float := max (lit 0 1) (min (lit 1 1) x).

Definition normalize_grammar_errors (error_count word_count : Z) : result float :=
  if (word_count <=? 0)%Z then Ok (lit 0 1)
  else
    r <- int_truediv error_count word_count ;;
    let ger := mul r (lit 100 1) in
    penalty <- truediv ger MAX_GRAMMAR_ERRORS_PER_100 ;;
    Ok (clamp_01 penalty).

Definition normalize_fillers (filler_count word_count : Z) : result float :=
  if (word_count <=? 0)%Z then Ok (lit 0 1)
  else
    r <- int_truediv filler_count word_count ;;
    let filler_rate := mul r (lit 100 1) in
    penalty <- truediv filler_rate MAX_FILLERS_PER_100 ;;
    Ok (clamp_01 penalty).

Definition normalize_wer (wer : option float) : result float :=
  match wer with
  | None => Ok (lit 0 1)
  | Some wer =>
      if ltb wer (lit 0 1) then Ok (lit 0 1)
      else
        penalty <- truediv wer MAX_WER ;;
        Ok (clamp_01 penalty)
  end.

Definition fluency_penalty (wpm : option float) : result float :=
  match wpm with
  | None => Ok (lit 0 1)
  | Some wpm =>
      if leb wpm (lit 0 1) then Ok (lit 0 1)
      else if leb IDEAL_WPM_MIN wpm && leb wpm IDEAL_WPM_MAX then Ok (lit 0 1)
      else if ltb wpm IDEAL_WPM_MIN then
        let distance := sub IDEAL_WPM_MIN wpm in
        let max_distance := sub IDEAL_WPM_MIN VERY_SLOW_WPM in
        penalty <- truediv distance max_distance ;;
        Ok (clamp_01 penalty)
      else if ltb IDEAL_WPM_MAX wpm then
        let distance := sub wpm IDEAL_WPM_MAX in
        let max_distance := sub VERY_FAST_WPM IDEAL_WPM_MAX in
        penalty <- truediv distance max_distance ;;
        Ok (clamp_01 penalty)
      else Ok (lit 0 1)
  end.

Definition calculate_final_score
    (grammar_penalty filler_penalty wer_penalty fluency_pen : float) : float :=
  let total_penalty :=
    add (add (add (mul grammar_penalty WEIGHT_GRAMMAR)
                  (mul filler_penalty WEIGHT_FILLERS))
             (mul wer_penalty WEIGHT_WER))
        (mul fluency_pen WEIGHT_FLUENCY) in
  let score := sub (lit 100 1) (mul total_penalty (lit 100 1)) in
  let score := max (lit 0 1) (min (lit 100 1) score) in
  round score 2.

(** The f-string prints each float with [str()]; the printer is a
    parameter here as well. *)
Section Explanation.

Variable float_str : float -> str.

Definition generate_score_explanation
    (grammar_penalty filler_penalty wer_penalty fluency_pen final : float) : str :=
  let grammar_deduction := round (mul (mul grammar_penalty WEIGHT_GRAMMAR) (lit 100 1)) 1 in
  let filler_deduction := round (mul (mul filler_penalty WEIGHT_FILLERS) (lit 100 1)) 1 in
  let wer_deduction := round (mul (mul wer_penalty WEIGHT_WER) (lit 100 1)) 1 in
  let fluency_deduction := round (mul (mul fluency_pen WEIGHT_FLUENCY) (lit 100 1)) 1 in
  let explanation :=
    (pystr "Score: " ++ float_str final ++ pystr "/100 | " ++
     pystr "Grammar: -" ++ float_str grammar_deduction ++ pystr " pts | " ++
     pystr "Fillers: -" ++ float_str filler_deduction ++ pystr " pts | " ++
     pystr "WER: -" ++ float_str wer_deduction ++ pystr " pts | " ++
     pystr "Fluency: -" ++ float_str fluency_deduction ++ pystr " pts")%list in
  explanation.

End Explanation.

End Scoring64.

(** The score formula of the specification, evaluated in binary64:
    [clamp(100 - total_penalty*100, 0, 100)] rounded to 2 decimals, with
    [total_penalty] the sum of [weight * penalty] and
    [clamp(x, lo, hi) = max(lo, min(hi, x))]. *)

Module Spec64.

Import B64.

Definition clamp (x lo hi : float) : float := max lo (min hi x).

Definition final_score (g f w fl : float) : float :=
  let total_penalty :=
    add (add (add (mul (lit 35 100) g) (mul (lit 25 100) f))
             (mul (lit 20 100) w))
        (mul (lit 20 100) fl) in
  round (clamp (sub (lit 100 1) (mul total_penalty (lit 100 1)))
               (lit 0 1) (lit 100 1)) 2.

End Spec64.

(** ** The formulas of the specification, in its own words

    These follow the text of the specification, not the source; the
    theorems below compare them with the source's functions. *)

Module Spec.

Open Scope Q_scope.

(** The punctuation marks [. , ! ? ; :]. *)
Definition ispunct (c : ascii) : bool := existsb (Ascii.eqb c) (pystr ".,!?;:").

(** The words of a text: its maximal runs of non-whitespace characters,
    in order.  [cur] is the word being read. *)
Fixpoint words_from (cur : str) (s : str) : list str :=
  match s with
  | [] => match cur with [] => [] | _ :: _ => [cur] end
  | c :: s' =>
      if Chars.isspace c
      then match cur with
           | [] => words_from [] s'
           | _ :: _ => cur :: words_from [] s'
           end
      else words_from (cur ++ [c]) s'
  end.

Definition words (s : str) : list str := words_from [] s.

Definition starts_with_punct (w : str) : bool :=
  match w with
  | c :: _ => ispunct c
  | [] => false
  end.

(** The words put together again: one space between two words, and none
    before a word that starts with a punctuation mark. *)
Fixpoint join (ws : list str) : str :=
  match ws with
  | [] => []
  | w :: rest =>
      w ++ match rest with
           | [] => []
           | w' :: _ =>
               if starts_with_punct w' then join rest else " "%char :: join rest
           end
  end.

(** Whitespace runs collapsed to one space, whitespace before punctuation
    removed, both ends trimmed, every other character kept. *)
Definition normalize (text : str) : str := join (words text).

(** A normalised text: every whitespace character is a space, it is
    neither first nor last, and the character after it is neither
    whitespace nor punctuation. *)
Definition tidy (t : str) : Prop :=
  (forall c, In c t -> Chars.isspace c = true -> c = " "%char) /\
  (forall a l, t = a :: l -> Chars.isspace a = false) /\
  (forall l a, t = l ++ [a] -> Chars.isspace a = false) /\
  (forall l1 a b l2, t = l1 ++ a :: b :: l2 -> Chars.isspace a = true ->
                     Chars.isspace b = false /\ ispunct b = false).

End Spec.

(** ** The passes of [normalize_transcript] as recursive functions

    What the two substitutions compute, and the single pass they amount to
    together with the final [strip]; used to reason about the regular
    expressions. *)

Module Passes.

(** The leading whitespace of a text. *)
Fixpoint span_ws (s : str) : str :=
  match s with
  | c :: s' => if Chars.isspace c then c :: span_ws s' else []
  | [] => []
  end.

(** Is the first character after the leading whitespace a punctuation
    mark? *)
Definition punct_follows (s : str) : bool :=
  match Str.lstrip s with
  | p :: _ => Spec.ispunct p
  | [] => false
  end.

(** [re.sub(r'\s+', ' ', s)]; [in_run] tells that the previous character
    was whitespace. *)
Fixpoint collapse (in_run : bool) (s : str) : str :=
  match s with
  | [] => []
  | c :: s' =>
      if Chars.isspace c
      then if in_run then collapse true s' else " "%char :: collapse true s'
      else c :: collapse false s'
  end.

(** [re.sub(r'\s+([.,!?;:])', r'\1', s)]: a whitespace character goes when
    the whitespace it starts is followed by a punctuation mark. *)
Fixpoint squeeze (s : str) : str :=
  match s with
  | [] => []
  | c :: s' =>
      if Chars.isspace c && punct_follows s'
      then squeeze s'
      else c :: squeeze s'
  end.

(** One pass over the text: whitespace is remembered in [gap] and turned
    into one space in front of the next character, unless no character was
    written yet ([first]) or that character is a punctuation mark. *)
Fixpoint onepass (first gap : bool) (s : str) : str :=
  match s with
  | [] => []
  | c :: s' =>
      if Chars.isspace c then onepass first true s'
      else if negb first && gap && negb (Spec.ispunct c)
           then " "%char :: c :: onepass false false s'
           else c :: onepass false false s'
  end.

(** What [Spec.join] puts in front of the words that follow a word. *)
Definition after_word (ws : list str) : str :=
  match ws with
  | [] => []
  | w' :: _ =>
      if Spec.starts_with_punct w' then Spec.join ws else " "%char :: Spec.join ws
  end.

(** The check behind [Spec.tidy]: every whitespace character is a space
    and is followed by a character that is neither whitespace nor a
    punctuation mark. *)
Fixpoint spaced (s : str) : bool :=
  match s with
  | [] => true
  | a :: s' =>
      (if Chars.isspace a
       then Ascii.eqb a " " &&
            match s' with
            | b :: _ => negb (Chars.isspace b) && negb (Spec.ispunct b)
            | [] => false
            end
       else true) && spaced s'
  end.

End Passes.

(** * Facts about the arithmetic *)

Module PyFacts.

Open Scope Q_scope.

Lemma ltb_lt (a b : Q) : Py.ltb a b = true <-> a < b.
Proof.
  unfold Py.ltb. rewrite negb_true_iff.
  split; intro H.
  - apply Qnot_le_lt. intro Hle. apply Qle_bool_iff in Hle. congruence.
  - destruct (Qle_bool b a) eqn:E; [|reflexivity].
    apply Qle_bool_iff in E. exfalso. apply (Qlt_not_le _ _ H E).
Qed.

Lemma ltb_ge (a b : Q) : Py.ltb a b = false <-> b <= a.
Proof.
  unfold Py.ltb. rewrite negb_false_iff. apply Qle_bool_iff.
Qed.

Lemma leb_le (a b : Q) : Py.leb a b = true <-> a <= b.
Proof. apply Qle_bool_iff. Qed.

Lemma leb_gt (a b : Q) : Py.leb a b = false <-> b < a.
Proof.
  unfold Py.leb. split; intro H.
  - apply Qnot_le_lt. intro Hle. apply Qle_bool_iff in Hle. congruence.
  - destruct (Qle_bool a b) eqn:E; [|reflexivity].
    apply Qle_bool_iff in E. exfalso. apply (Qlt_not_le _ _ H E).
Qed.

Lemma div_ok (a b : Q) : ~ b == 0 -> Py.div a b = Ok (a / b).
Proof.
  intro H. unfold Py.div.
  destruct (Qeq_bool b 0) eqn:E; [|reflexivity].
  apply Qeq_bool_iff in E. contradiction.
Qed.

Lemma div_zero (a b : Q) : b == 0 -> Py.div a b = Raise ZeroDivisionError.
Proof.
  intro H. unfold Py.div. apply Qeq_bool_iff in H. now rewrite H.
Qed.

Lemma min_spec (a b : Q) :
  (b < a /\ Py.min a b = b) \/ (a <= b /\ Py.min a b = a).
Proof.
  unfold Py.min. destruct (Py.ltb b a) eqn:E.
  - left. split; [now apply ltb_lt | reflexivity].
  - right. split; [now apply ltb_ge | reflexivity].
Qed.

Lemma max_spec (a b : Q) :
  (a < b /\ Py.max a b = b) \/ (b <= a /\ Py.max a b = a).
Proof.
  unfold Py.max. destruct (Py.ltb a b) eqn:E.
  - left. split; [now apply ltb_lt | reflexivity].
  - right. split; [now apply ltb_ge | reflexivity].
Qed.

(** Case analysis on every [Py.min] and [Py.max] of the goal. *)
Ltac minmax :=
  repeat match goal with
  | |- context [Py.min ?a ?b] =>
      let H := fresh "Hmin" in let E := fresh "Emin" in
      destruct (min_spec a b) as [[H E] | [H E]]; rewrite E in *
  | |- context [Py.max ?a ?b] =>
      let H := fresh "Hmax" in let E := fresh "Emax" in
      destruct (max_spec a b) as [[H E] | [H E]]; rewrite E in *
  end.

(** The builtins agree with the mathematical minimum and maximum. *)
Lemma min_Qmin (a b : Q) : Py.min a b == Qmin a b.
Proof.
  destruct (min_spec a b) as [[H E] | [H E]]; rewrite E.
  - symmetry. apply Q.min_r. now apply Qlt_le_weak.
  - symmetry. now apply Q.min_l.
Qed.

Lemma max_Qmax (a b : Q) : Py.max a b == Qmax a b.
Proof.
  destruct (max_spec a b) as [[H E] | [H E]]; rewrite E.
  - symmetry. apply Q.max_r. now apply Qlt_le_weak.
  - symmetry. now apply Q.max_l.
Qed.

#[export] Instance min_compat : Proper (Qeq ==> Qeq ==> Qeq) Py.min.
Proof.
  intros a a' Ha b b' Hb. rewrite !min_Qmin. now rewrite Ha, Hb.
Qed.

#[export] Instance max_compat : Proper (Qeq ==> Qeq ==> Qeq) Py.max.
Proof.
  intros a a' Ha b b' Hb. rewrite !max_Qmax. now rewrite Ha, Hb.
Qed.

(** *** Rounding *)

#[export] Instance round_half_even_compat : Proper (Qeq ==> eq) Py.round_half_even.
Proof.
  intros x y H. unfold Py.round_half_even.
  rewrite (Qfloor_comp _ _ H).
  assert (E : x - inject_Z (Qfloor y) == y - inject_Z (Qfloor y))
    by now rewrite H.
  now rewrite (Qcompare_comp _ _ E _ _ (Qeq_refl (1 # 2))).
Qed.

#[export] Instance round_compat : Proper (Qeq ==> eq ==> Qeq) Py.round.
Proof.
  intros x y H n ? <-. unfold Py.round.
  assert (E : x * inject_Z (10 ^ Z.of_nat n) == y * inject_Z (10 ^ Z.of_nat n))
    by now rewrite H.
  now rewrite (round_half_even_compat _ _ E).
Qed.

Lemma round_half_even_floor (q : Q) :
  (Qfloor q <= Py.round_half_even q <= Qfloor q + 1)%Z.
Proof.
  unfold Py.round_half_even.
  destruct (Qcompare _ _); [destruct (Z.even _)| |]; lia.
Qed.

(** An integer below (above) [q] is below (above) its rounding. *)
Lemma round_half_even_lower (z : Z) (q : Q) :
  inject_Z z <= q -> (z <= Py.round_half_even q)%Z.
Proof.
  intro H. apply Qfloor_resp_le in H. rewrite Qfloor_Z in H.
  pose proof (round_half_even_floor q). lia.
Qed.

Lemma round_half_even_upper (z : Z) (q : Q) :
  q <= inject_Z z -> (Py.round_half_even q <= z)%Z.
Proof.
  intro H.
  pose proof (Qfloor_resp_le _ _ H) as Hf. rewrite Qfloor_Z in Hf.
  destruct (Z.eq_dec (Qfloor q) z) as [E | N].
  - unfold Py.round_half_even. cbv zeta.
    pose proof (Qfloor_le q) as Hq. rewrite E in *.
    destruct (Qcompare_spec (q - inject_Z z) (1 # 2)) as [Hd | Hd | Hd];
      [exfalso; lra | lia | exfalso; lra].
  - pose proof (round_half_even_floor q). lia.
Qed.

Lemma round_half_even_Z (z : Z) : Py.round_half_even (inject_Z z) = z.
Proof.
  apply Z.le_antisymm.
  - apply round_half_even_upper. apply Qle_refl.
  - apply round_half_even_lower. apply Qle_refl.
Qed.

Lemma pow10_pos (n : nat) : 0 < inject_Z (10 ^ Z.of_nat n).
Proof.
  replace 0 with (inject_Z 0) by reflexivity. rewrite <- Zlt_Qlt.
  apply Z.pow_pos_nonneg; lia.
Qed.

(** Rounding keeps a value between two integers between them. *)
Lemma round_between (lo hi : Z) (x : Q) (n : nat) :
  inject_Z lo <= x <= inject_Z hi ->
  inject_Z lo <= Py.round x n <= inject_Z hi.
Proof.
  intros [Hlo Hhi]. unfold Py.round.
  set (p := (10 ^ Z.of_nat n)%Z).
  assert (Hp : 0 < inject_Z p) by apply pow10_pos.
  assert (L : (lo * p <= Py.round_half_even (x * inject_Z p))%Z).
  { apply round_half_even_lower. rewrite inject_Z_mult.
    apply Qmult_le_compat_r; [assumption | now apply Qlt_le_weak]. }
  assert (U : (Py.round_half_even (x * inject_Z p) <= hi * p)%Z).
  { apply round_half_even_upper. rewrite inject_Z_mult.
    apply Qmult_le_compat_r; [assumption | now apply Qlt_le_weak]. }
  rewrite Zle_Qle, inject_Z_mult in L, U.
  split.
  - apply Qle_shift_div_l; assumption.
  - apply Qle_shift_div_r; assumption.
Qed.

End PyFacts.

(** * [app/scoring.py]: the penalties and the final score *)

Module ScoringFacts.

Import Scoring PyFacts.

Open Scope Q_scope.

Lemma clamp_01_bounds (x : Q) : 0 <= clamp_01 x <= 1.
Proof. unfold clamp_01. minmax; lra. Qed.

Lemma clamp_01_id (x : Q) : 0 <= x <= 1 -> clamp_01 x == x.
Proof. intro H. unfold clamp_01. minmax; lra. Qed.

Lemma clamp_01_low (x : Q) : x <= 0 -> clamp_01 x == 0.
Proof. intro H. unfold clamp_01. minmax; lra. Qed.

Lemma clamp_01_high (x : Q) : 1 <= x -> clamp_01 x == 1.
Proof. intro H. unfold clamp_01. minmax; lra. Qed.

Lemma clamp_01_mono (x y : Q) : x <= y -> clamp_01 x <= clamp_01 y.
Proof. intro H. unfold clamp_01. minmax; lra. Qed.

#[export] Instance clamp_01_compat : Proper (Qeq ==> Qeq) clamp_01.
Proof.
  intros x y H. apply Qle_antisym; apply clamp_01_mono; rewrite H; apply Qle_refl.
Qed.

(** Division by a positive number, under the clamp. *)
Lemma div_mono (x y c : Q) : 0 < c -> x <= y -> x / c <= y / c.
Proof.
  intros Hc H. unfold Qdiv. apply Qmult_le_compat_r; [assumption|].
  apply Qlt_le_weak. now apply Qinv_lt_0_compat.
Qed.

Lemma clamp_div_high (x c : Q) : 0 < c -> c <= x -> clamp_01 (x / c) == 1.
Proof.
  intros Hc H. apply clamp_01_high. apply Qle_shift_div_l; [assumption | lra].
Qed.

Lemma clamp_div_id (x c : Q) : 0 < c -> 0 <= x <= c -> clamp_01 (x / c) == x / c.
Proof.
  intros Hc [H0 H1]. apply clamp_01_id. split.
  - apply Qle_shift_div_l; [assumption | lra].
  - apply Qle_shift_div_r; [assumption | lra].
Qed.

Lemma clamp_div_mono (x y c : Q) :
  0 < c -> x <= y -> clamp_01 (x / c) <= clamp_01 (y / c).
Proof. intros Hc H. apply clamp_01_mono. now apply div_mono. Qed.

Lemma inject_Z_pos (w : Z) : (0 < w)%Z -> 0 < inject_Z w.
Proof.
  intro H. replace 0 with (inject_Z 0) by reflexivity. now rewrite <- Zlt_Qlt.
Qed.

(** *** What each normaliser returns *)

Lemma rate_penalty_value (n w : Z) (cap : Q) :
  (0 < w)%Z -> 0 < cap ->
  (r <- Py.div (inject_Z n) (inject_Z w) ;;
   penalty <- Py.div (r * 100.0) cap ;;
   Ok (clamp_01 penalty))
  = Ok (clamp_01 (inject_Z n / inject_Z w * 100.0 / cap)).
Proof.
  intros Hw Hc. apply inject_Z_pos in Hw.
  rewrite div_ok by (intro E; rewrite E in Hw; now apply Qlt_irrefl in Hw).
  cbn [bind].
  rewrite div_ok by (intro E; rewrite E in Hc; now apply Qlt_irrefl in Hc).
  reflexivity.
Qed.

Lemma normalize_grammar_errors_value (e w : Z) :
  (0 < w)%Z ->
  normalize_grammar_errors e w
  = Ok (clamp_01 (inject_Z e / inject_Z w * 100.0 / MAX_GRAMMAR_ERRORS_PER_100)).
Proof.
  intro Hw. unfold normalize_grammar_errors.
  destruct (Z.leb_spec w 0) as [H | _]; [lia|].
  apply rate_penalty_value; [assumption | reflexivity].
Qed.

Lemma normalize_fillers_value (f w : Z) :
  (0 < w)%Z ->
  normalize_fillers f w
  = Ok (clamp_01 (inject_Z f / inject_Z w * 100.0 / MAX_FILLERS_PER_100)).
Proof.
  intro Hw. unfold normalize_fillers.
  destruct (Z.leb_spec w 0) as [H | _]; [lia|].
  apply rate_penalty_value; [assumption | reflexivity].
Qed.

Lemma normalize_wer_value (wer : Q) :
  0 <= wer ->
  normalize_wer (Some wer) = Ok (clamp_01 (wer / MAX_WER)).
Proof.
  intro H. unfold normalize_wer.
  destruct (Py.ltb wer 0) eqn:E.
  - apply ltb_lt in E. exfalso. lra.
  - rewrite div_ok by (intro N; vm_compute in N; discriminate). reflexivity.
Qed.

Lemma rate_mono (n1 n2 w : Z) :
  (0 < w)%Z -> (n1 <= n2)%Z ->
  inject_Z n1 / inject_Z w * 100.0 <= inject_Z n2 / inject_Z w * 100.0.
Proof.
  intros Hw H. apply inject_Z_pos in Hw. rewrite Zle_Qle in H.
  apply Qmult_le_compat_r; [|discriminate].
  now apply div_mono.
Qed.

(** *** The final score *)

#[export] Instance calculate_final_score_compat :
  Proper (Qeq ==> Qeq ==> Qeq ==> Qeq ==> Qeq) calculate_final_score.
Proof.
  intros g g' Hg f f' Hf w w' Hw fl fl' Hfl. unfold calculate_final_score.
  apply round_compat; [|reflexivity].
  now rewrite Hg, Hf, Hw, Hfl.
Qed.

Lemma calculate_final_score_range (g f w fl : Q) :
  0 <= calculate_final_score g f w fl <= 100.
Proof.
  unfold calculate_final_score.
  apply (round_between 0 100). unfold inject_Z.
  minmax; lra.
Qed.

(** C1, as stated, fails: the inputs are not clamped one by one.  With a
    grammar penalty of 2 the score is 30, with the clamped penalty 1 it
    is 65. *)
Lemma calculate_final_score_inputs_not_clamped :
  calculate_final_score 2 0 0 0 == 30 /\
  calculate_final_score (clamp_01 2) (clamp_01 0) (clamp_01 0) (clamp_01 0) == 65 /\
  ~ calculate_final_score 2 0 0 0
    == calculate_final_score (clamp_01 2) (clamp_01 0) (clamp_01 0) (clamp_01 0).
Proof.
  split; [reflexivity|]. split; [reflexivity|].
  intro H. vm_compute in H. discriminate.
Qed.

(** C1, amended: for all four inputs, in range or not, the score of
    [calculate_final_score] lies in [0, 100]; only the score is clamped,
    so it is the score of the clamped inputs when every input already lies
    in [0, 1]. *)
Theorem calculate_final_score_bounded (g f w fl : Q) :
  (0 <= calculate_final_score g f w fl <= 100) /\
  (0 <= g <= 1 -> 0 <= f <= 1 -> 0 <= w <= 1 -> 0 <= fl <= 1 ->
   calculate_final_score g f w fl
   == calculate_final_score (clamp_01 g) (clamp_01 f) (clamp_01 w) (clamp_01 fl)).
Proof.
  split.
  - apply calculate_final_score_range.
  - intros Hg Hf Hw Hfl.
    now rewrite (clamp_01_id g Hg), (clamp_01_id f Hf), (clamp_01_id w Hw), (clamp_01_id fl Hfl).
Qed.

Lemma calculate_final_score_bounded_witness :
  (0 <= calculate_final_score (1 # 2) (1 # 4) 0 1 <= 100) /\
  calculate_final_score (1 # 2) (1 # 4) 0 1
  == calculate_final_score (clamp_01 (1 # 2)) (clamp_01 (1 # 4)) (clamp_01 0) (clamp_01 1).
Proof.
  pose proof (calculate_final_score_bounded (1 # 2) (1 # 4) 0 1) as [R E].
  split; [exact R|].
  apply E; split; discriminate.
Defined.

(** *** The fluency penalty *)

Lemma fluency_penalty_slow (wpm : Q) :
  0 < wpm -> wpm < 110 ->
  fluency_penalty (Some wpm) = Ok (clamp_01 ((IDEAL_WPM_MIN - wpm) / (IDEAL_WPM_MIN - VERY_SLOW_WPM))).
Proof.
  intros H0 H. unfold fluency_penalty.
  destruct (Py.leb wpm 0) eqn:E0; [apply leb_le in E0; exfalso; lra|].
  destruct (Py.leb IDEAL_WPM_MIN wpm) eqn:E1;
    [apply leb_le in E1; unfold IDEAL_WPM_MIN in E1; exfalso; lra|].
  cbn [andb].
  destruct (Py.ltb wpm IDEAL_WPM_MIN) eqn:E2;
    [|apply ltb_ge in E2; unfold IDEAL_WPM_MIN in E2; exfalso; lra].
  reflexivity.
Qed.

Lemma fluency_penalty_fast (wpm : Q) :
  170 < wpm ->
  fluency_penalty (Some wpm) = Ok (clamp_01 ((wpm - IDEAL_WPM_MAX) / (VERY_FAST_WPM - IDEAL_WPM_MAX))).
Proof.
  intros H. unfold fluency_penalty.
  destruct (Py.leb wpm 0) eqn:E0; [apply leb_le in E0; exfalso; lra|].
  destruct (Py.leb wpm IDEAL_WPM_MAX) eqn:E1;
    [apply leb_le in E1; unfold IDEAL_WPM_MAX in E1; exfalso; lra|].
  rewrite andb_false_r.
  destruct (Py.ltb wpm IDEAL_WPM_MIN) eqn:E2;
    [apply ltb_lt in E2; unfold IDEAL_WPM_MIN in E2; exfalso; lra|].
  destruct (Py.ltb IDEAL_WPM_MAX wpm) eqn:E3;
    [|apply ltb_ge in E3; unfold IDEAL_WPM_MAX in E3; exfalso; lra].
  reflexivity.
Qed.

Lemma fluency_penalty_ideal (wpm : Q) :
  110 <= wpm <= 170 -> fluency_penalty (Some wpm) = Ok 0.0.
Proof.
  intros [H1 H2]. unfold fluency_penalty.
  destruct (Py.leb wpm 0) eqn:E0; [reflexivity|].
  destruct (Py.leb IDEAL_WPM_MIN wpm) eqn:E1;
    [|apply leb_gt in E1; unfold IDEAL_WPM_MIN in E1; exfalso; lra].
  destruct (Py.leb wpm IDEAL_WPM_MAX) eqn:E2;
    [|apply leb_gt in E2; unfold IDEAL_WPM_MAX in E2; exfalso; lra].
  reflexivity.
Qed.

Lemma fluency_penalty_nonpositive (wpm : Q) :
  wpm <= 0 -> fluency_penalty (Some wpm) = Ok 0.0.
Proof.
  intro H. unfold fluency_penalty. apply leb_le in H. now rewrite H.
Qed.

(** C3, as stated, fails: a speaking rate of 0 is at most 60, and its
    penalty is 0, not 1. *)
Lemma fluency_penalty_zero_wpm_not_one :
  0 <= 60 /\
  fluency_penalty (Some 0) = Ok 0.0 /\
  ~ returns (fluency_penalty (Some 0)) (fun p => p == 1.0).
Proof.
  split; [discriminate|]. split; [reflexivity|].
  intros [p [E H]]. vm_compute in E. injection E as <-. discriminate.
Qed.

(** C3, amended: the fluency penalty is 0 for a rate in [110, 170] and for a
    rate that is absent or at most 0; it is 1 for a rate in (0, 60] and for
    a rate of 220 or more; it is the ramp [(110 - wpm) / 50] between 60 and
    110 and the ramp [(wpm - 170) / 50] between 170 and 220. *)
Theorem fluency_penalty_piecewise (wpm : Q) :
  (110 <= wpm <= 170 -> returns (fluency_penalty (Some wpm)) (fun p => p == 0)) /\
  (wpm <= 0 -> returns (fluency_penalty (Some wpm)) (fun p => p == 0)) /\
  (0 < wpm <= 60 -> returns (fluency_penalty (Some wpm)) (fun p => p == 1)) /\
  (220 <= wpm -> returns (fluency_penalty (Some wpm)) (fun p => p == 1)) /\
  (60 <= wpm <= 110 ->
   returns (fluency_penalty (Some wpm)) (fun p => p == (110 - wpm) / 50)) /\
  (170 <= wpm <= 220 ->
   returns (fluency_penalty (Some wpm)) (fun p => p == (wpm - 170) / 50)) /\
  returns (fluency_penalty None) (fun p => p == 0).
Proof.
  assert (Slow : IDEAL_WPM_MIN - VERY_SLOW_WPM == 50) by reflexivity.
  assert (Fast : VERY_FAST_WPM - IDEAL_WPM_MAX == 50) by reflexivity.
  repeat split; try intros [H1 H2]; try intro H.
  - exists 0.0. split; [now apply fluency_penalty_ideal | reflexivity].
  - exists 0.0. split; [now apply fluency_penalty_nonpositive | reflexivity].
  - eexists. split; [apply fluency_penalty_slow; lra|].
    rewrite Slow. apply clamp_div_high; unfold IDEAL_WPM_MIN; lra.
  - eexists. split; [apply fluency_penalty_fast; lra|].
    rewrite Fast. apply clamp_div_high; unfold IDEAL_WPM_MAX; lra.
  - destruct (Qlt_le_dec wpm 110) as [Hlt | Hge].
    + eexists. split; [apply fluency_penalty_slow; lra|].
      rewrite Slow. unfold IDEAL_WPM_MIN.
      rewrite clamp_div_id by lra.
      apply Qdiv_comp; [ring | reflexivity].
    + exists 0.0. split; [apply fluency_penalty_ideal; lra|].
      assert (E : 110 - wpm == 0) by lra. rewrite E. reflexivity.
  - destruct (Qlt_le_dec 170 wpm) as [Hgt | Hle].
    + eexists. split; [apply fluency_penalty_fast; lra|].
      rewrite Fast. unfold IDEAL_WPM_MAX.
      rewrite clamp_div_id by lra.
      apply Qdiv_comp; [ring | reflexivity].
    + exists 0.0. split; [apply fluency_penalty_ideal; lra|].
      assert (E : wpm - 170 == 0) by lra. rewrite E. reflexivity.
  - exists 0.0. split; reflexivity.
Qed.

Lemma fluency_penalty_piecewise_witness :
  returns (fluency_penalty (Some 140)) (fun p => p == 0) /\
  returns (fluency_penalty (Some (-50))) (fun p => p == 0) /\
  returns (fluency_penalty (Some 40)) (fun p => p == 1) /\
  returns (fluency_penalty (Some 250)) (fun p => p == 1) /\
  returns (fluency_penalty (Some 90)) (fun p => p == (110 - 90) / 50) /\
  returns (fluency_penalty (Some 190)) (fun p => p == (190 - 170) / 50).
Proof.
  split; [apply (proj1 (fluency_penalty_piecewise 140)); split; discriminate|].
  split; [apply (proj1 (proj2 (fluency_penalty_piecewise (-50)))); discriminate|].
  destruct (fluency_penalty_piecewise 40) as (_ & _ & Slow & _).
  split; [apply Slow; split; [reflexivity | discriminate]|].
  destruct (fluency_penalty_piecewise 250) as (_ & _ & _ & Fast & _).
  split; [apply Fast; discriminate|].
  destruct (fluency_penalty_piecewise 90) as (_ & _ & _ & _ & Ramp1 & _).
  split; [apply Ramp1; split; discriminate|].
  destruct (fluency_penalty_piecewise 190) as (_ & _ & _ & _ & _ & Ramp2 & _).
  apply Ramp2; split; discriminate.
Defined.

(** *** Monotone penalties that saturate *)



(** *** Rate invariance of the grammar penalty *)




(** *** Totality of the numeric functions *)

Lemma normalize_grammar_errors_total (e w : Z) :
  returns (normalize_grammar_errors e w) (fun p => 0 <= p <= 1).
Proof.
  destruct (Z.leb_spec w 0) as [H | H].
  - exists 0.0. unfold normalize_grammar_errors.
    apply Z.leb_le in H. rewrite H. split; [reflexivity | split; discriminate].
  - eexists. split; [now apply normalize_grammar_errors_value|].
    apply clamp_01_bounds.
Qed.

Lemma normalize_fillers_total (f w : Z) :
  returns (normalize_fillers f w) (fun p => 0 <= p <= 1).
Proof.
  destruct (Z.leb_spec w 0) as [H | H].
  - exists 0.0. unfold normalize_fillers.
    apply Z.leb_le in H. rewrite H. split; [reflexivity | split; discriminate].
  - eexists. split; [now apply normalize_fillers_value|].
    apply clamp_01_bounds.
Qed.

Lemma normalize_wer_total (wer : option Q) :
  returns (normalize_wer wer) (fun p => 0 <= p <= 1).
Proof.
  destruct wer as [wer|].
  - destruct (Qlt_le_dec wer 0) as [H | H].
    + exists 0.0. unfold normalize_wer. apply ltb_lt in H. rewrite H.
      split; [reflexivity | split; discriminate].
    + eexists. split; [now apply normalize_wer_value|]. apply clamp_01_bounds.
  - exists 0.0. split; [reflexivity | split; discriminate].
Qed.

Lemma fluency_penalty_total (wpm : option Q) :
  returns (fluency_penalty wpm) (fun p => 0 <= p <= 1).
Proof.
  destruct wpm as [wpm|]; [|exists 0.0; split; [reflexivity | split; discriminate]].
  destruct (Qlt_le_dec 0 wpm) as [H0 | H0].
  - destruct (Qlt_le_dec wpm 110) as [H1 | H1].
    + eexists. split; [now apply fluency_penalty_slow|]. apply clamp_01_bounds.
    + destruct (Qlt_le_dec 170 wpm) as [H2 | H2].
      * eexists. split; [now apply fluency_penalty_fast|]. apply clamp_01_bounds.
      * exists 0.0. split; [now apply fluency_penalty_ideal|]. split; discriminate.
  - exists 0.0. split; [now apply fluency_penalty_nonpositive|]. split; discriminate.
Qed.

End ScoringFacts.

(** * [app/text_features.py] *)

Module ReFacts.

Import Re Passes.

(** *** Characters *)

Lemma punct_not_space (c : ascii) : Spec.ispunct c = true -> Chars.isspace c = false.
Proof.
  unfold Spec.ispunct. rewrite existsb_exists. intros [d [Hin E]].
  apply Ascii.eqb_eq in E. subst d.
  cbn in Hin. repeat (destruct Hin as [<- | Hin]; [reflexivity|]). contradiction.
Qed.

Lemma space_not_punct (c : ascii) : Chars.isspace c = true -> Spec.ispunct c = false.
Proof.
  intro H. destruct (Spec.ispunct c) eqn:E; [|reflexivity].
  apply punct_not_space in E. congruence.
Qed.

(** *** Leading whitespace *)

Lemma span_lstrip (s : str) : span_ws s ++ Str.lstrip s = s.
Proof.
  induction s as [|c s IH]; [reflexivity|].
  cbn. destruct (Chars.isspace c); [cbn; now rewrite IH | reflexivity].
Qed.

Lemma span_ws_all (s : str) : forallb Chars.isspace (span_ws s) = true.
Proof.
  induction s as [|c s IH]; [reflexivity|].
  cbn. destruct (Chars.isspace c) eqn:E; [cbn; now rewrite E | reflexivity].
Qed.

Lemma lstrip_head (s : str) (c : ascii) (r : str) :
  Str.lstrip s = c :: r -> Chars.isspace c = false.
Proof.
  induction s as [|d s IH]; [discriminate|].
  cbn. destruct (Chars.isspace d) eqn:E; [exact IH|].
  intro H. injection H as <- _. exact E.
Qed.

Lemma lstrip_all (s : str) : forallb Chars.isspace s = true -> Str.lstrip s = [].
Proof.
  induction s as [|c s IH]; [reflexivity|].
  cbn. destruct (Chars.isspace c); [exact IH | discriminate].
Qed.

Lemma lstrip_nil_all (s : str) : Str.lstrip s = [] -> forallb Chars.isspace s = true.
Proof.
  induction s as [|c s IH]; [reflexivity|].
  cbn. destruct (Chars.isspace c); [exact IH | discriminate].
Qed.

Lemma lstrip_app (a b : str) :
  Str.lstrip (a ++ b)
  = if forallb Chars.isspace a then Str.lstrip b else Str.lstrip a ++ b.
Proof.
  induction a as [|c a IH]; [reflexivity|].
  cbn. destruct (Chars.isspace c); [exact IH | reflexivity].
Qed.

(** *** Trailing whitespace *)

Lemma rstrip_all (s : str) : forallb Chars.isspace s = true -> Str.rstrip s = [].
Proof.
  intro H. unfold Str.rstrip. rewrite lstrip_all; [reflexivity|].
  rewrite forallb_forall in *. intros c Hc. apply H. now apply in_rev.
Qed.

Lemma rstrip_keep (x y : str) (c : ascii) :
  Chars.isspace c = false -> Str.rstrip (x ++ c :: y) = x ++ c :: Str.rstrip y.
Proof.
  intro Hc. unfold Str.rstrip.
  rewrite rev_app_distr. cbn [rev]. rewrite <- app_assoc. cbn [app].
  rewrite lstrip_app.
  destruct (forallb Chars.isspace (rev y)) eqn:E.
  - rewrite (lstrip_all _ E). cbn [Str.lstrip]. rewrite Hc.
    cbn [rev]. now rewrite rev_involutive.
  - rewrite rev_app_distr. cbn [rev]. rewrite rev_involutive.
    now rewrite <- app_assoc.
Qed.

Lemma rstrip_cons_keep (c : ascii) (y : str) :
  Chars.isspace c = false -> Str.rstrip (c :: y) = c :: Str.rstrip y.
Proof. apply (rstrip_keep []). Qed.

Lemma rstrip_last (s l : str) (a : ascii) :
  Str.rstrip s = l ++ [a] -> Chars.isspace a = false.
Proof.
  unfold Str.rstrip. intro H.
  assert (E : Str.lstrip (rev s) = a :: rev l).
  { rewrite <- (rev_involutive (Str.lstrip (rev s))), H, rev_app_distr. reflexivity. }
  now apply lstrip_head in E.
Qed.

(** *** The equations of the matcher and of the scan *)

Lemma match_here_plus_nil (ic : bool) (k : cls) (re : pattern) (prev : option ascii) :
  match_here ic (Plus k :: re) prev [] = None.
Proof. reflexivity. Qed.

Lemma match_here_plus_cons (ic : bool) (k : cls) (re : pattern)
    (prev : option ascii) (c : ascii) (s : str) :
  match_here ic (Plus k :: re) prev (c :: s)
  = if cls_match ic k c
    then match match_here ic (Plus k :: re) (Some c) s with
         | Some r => consume c (Some r)
         | None => consume c (match_here ic re (Some c) s)
         end
    else None.
Proof. reflexivity. Qed.

Lemma scan_cons_skip (ic : bool) (re : pattern) (prev : option ascii)
    (c : ascii) (s : str) (k : nat) :
  scan ic re prev (c :: s) (S k) = scan ic re (Some c) s k.
Proof. reflexivity. Qed.

Lemma scan_cons_miss (ic : bool) (re : pattern) (prev : option ascii)
    (c : ascii) (s : str) :
  match_here ic re prev (c :: s) = None ->
  scan ic re prev (c :: s) 0 = Text c :: scan ic re (Some c) s 0.
Proof. intro H. cbn [scan]. now rewrite H. Qed.

Lemma scan_cons_hit (ic : bool) (re : pattern) (prev : option ascii)
    (c d : ascii) (s m : str) (gs : list str) :
  match_here ic re prev (c :: s) = Some (d :: m, gs) ->
  scan ic re prev (c :: s) 0
  = Hit (c :: m, gs) :: scan ic re (Some c) s (List.length m).
Proof. intro H. cbn [scan]. now rewrite H. Qed.

Lemma render_text (repl : list tpl) (c : ascii) (ps : list piece) :
  render repl (Text c :: ps) = c :: render repl ps.
Proof. reflexivity. Qed.

Lemma render_hit (repl : list tpl) (h : hit) (ps : list piece) :
  render repl (Hit h :: ps) = expand repl h ++ render repl ps.
Proof. reflexivity. Qed.

(** Skipping the characters a match covers. *)
Lemma scan_skip (ic : bool) (re : pattern) (l r : str) (prev : option ascii) :
  scan ic re prev (l ++ r) (List.length l)
  = scan ic re (fold_left (fun _ c => Some c) l prev) r 0.
Proof.
  revert prev. induction l as [|c l IH]; intro prev; [reflexivity|].
  cbn [app List.length fold_left]. rewrite scan_cons_skip. apply IH.
Qed.

(** *** [\s+] *)

Lemma match_ws_run (prev : option ascii) (s : str) :
  match_here false TextFeatures.ws_run prev s
  = match s with
    | c :: s' => if Chars.isspace c then Some (c :: span_ws s', []) else None
    | [] => None
    end.
Proof.
  unfold TextFeatures.ws_run.
  revert prev. induction s as [|c s IH]; intro prev; [reflexivity|].
  rewrite match_here_plus_cons. cbn [cls_match].
  destruct (Chars.isspace c) eqn:Ec; [|reflexivity].
  rewrite IH. destruct s as [|d s]; [reflexivity|].
  cbn [span_ws]. destruct (Chars.isspace d); reflexivity.
Qed.

Lemma scan_ws_run (s : str) :
  forall prev,
    render [TLit (pystr " ")] (scan false TextFeatures.ws_run prev s 0)
    = collapse false s /\
    render [TLit (pystr " ")]
           (scan false TextFeatures.ws_run prev s (List.length (span_ws s)))
    = collapse true s.
Proof.
  induction s as [|c s IH]; intro prev; [split; reflexivity|].
  destruct (IH (Some c)) as [IH0 IH1].
  cbn [span_ws collapse]. destruct (Chars.isspace c) eqn:Ec.
  - split.
    + rewrite (scan_cons_hit false _ prev c c s (span_ws s) [])
        by (rewrite match_ws_run, Ec; reflexivity).
      rewrite render_hit, IH1. reflexivity.
    + cbn [List.length]. rewrite scan_cons_skip. exact IH1.
  - assert (M : scan false TextFeatures.ws_run prev (c :: s) 0
                = Text c :: scan false TextFeatures.ws_run (Some c) s 0).
    { apply scan_cons_miss. rewrite match_ws_run, Ec. reflexivity. }
    cbn [List.length]. rewrite M, render_text, IH0. split; reflexivity.
Qed.

Lemma sub_ws_run (s : str) :
  Re.sub false TextFeatures.ws_run [TLit (pystr " ")] s = Ok (collapse false s).
Proof.
  unfold Re.sub. cbn [forallb tpl_ok andb].
  now rewrite (proj1 (scan_ws_run s None)).
Qed.

(** *** [\s+([.,!?;:])] *)

Lemma match_punct_group (prev : option ascii) (s : str) :
  match_here false [Group (OneOf (pystr ".,!?;:"))] prev s
  = match s with
    | p :: _ => if Spec.ispunct p then Some ([p], [[p]]) else None
    | [] => None
    end.
Proof.
  destruct s as [|p s]; [reflexivity|].
  cbn [match_here]. change (cls_match false (OneOf (pystr ".,!?;:")) p) with (Spec.ispunct p).
  destruct (Spec.ispunct p); reflexivity.
Qed.

Lemma match_ws_before_punct (prev : option ascii) (s : str) :
  match_here false TextFeatures.ws_before_punct prev s
  = match s with
    | c :: s' =>
        if Chars.isspace c
        then match Str.lstrip s' with
             | p :: _ =>
                 if Spec.ispunct p then Some (c :: span_ws s' ++ [p], [[p]]) else None
             | [] => None
             end
        else None
    | [] => None
    end.
Proof.
  unfold TextFeatures.ws_before_punct.
  revert prev. induction s as [|c s IH]; intro prev; [reflexivity|].
  rewrite match_here_plus_cons. cbn [cls_match].
  destruct (Chars.isspace c) eqn:Ec; [|reflexivity].
  rewrite IH, match_punct_group.
  destruct s as [|d s]; [reflexivity|].
  cbn [Str.lstrip span_ws]. destruct (Chars.isspace d) eqn:Ed.
  - rewrite (space_not_punct d Ed).
    destruct (Str.lstrip s) as [|p r]; [reflexivity|].
    destruct (Spec.ispunct p); reflexivity.
  - destruct (Spec.ispunct d); reflexivity.
Qed.

Lemma squeeze_run (ws : str) (p : ascii) (r : str) :
  forallb Chars.isspace ws = true -> Spec.ispunct p = true ->
  squeeze (ws ++ p :: r) = p :: squeeze r.
Proof.
  intros Hws Hp. induction ws as [|c ws IH].
  - cbn. now rewrite (punct_not_space p Hp).
  - cbn in Hws. apply andb_prop in Hws as [Hc Hws].
    cbn [app squeeze]. rewrite Hc. unfold punct_follows.
    rewrite lstrip_app, Hws. cbn [Str.lstrip].
    rewrite (punct_not_space p Hp), Hp. cbn [andb]. now apply IH.
Qed.

Lemma scan_ws_before_punct (n : nat) :
  forall (s : str) (prev : option ascii),
    (List.length s <= n)%nat ->
    render [TGroup 1] (scan false TextFeatures.ws_before_punct prev s 0)
    = squeeze s.
Proof.
  induction n as [|n IH]; intros s prev Hn.
  - destruct s; [reflexivity | cbn in Hn; lia].
  - destruct s as [|c s]; [reflexivity|].
    cbn [List.length] in Hn.
    pose proof (match_ws_before_punct prev (c :: s)) as M. cbv beta iota in M.
    cbn [squeeze]. unfold punct_follows.
    destruct (Chars.isspace c) eqn:Ec;
      [destruct (Str.lstrip s) as [|p r] eqn:El;
       [|destruct (Spec.ispunct p) eqn:Ep]|].
    2: {
      rewrite (scan_cons_hit _ _ _ _ _ _ _ _ M).
      pose proof (span_lstrip s) as Es. rewrite El in Es.
      assert (Es' : s = (span_ws s ++ [p]) ++ r)
        by (rewrite <- app_assoc; cbn; now symmetry).
      rewrite Es' at 2. rewrite scan_skip, render_hit.
      rewrite IH by (rewrite Es', length_app in Hn; lia).
      cbn [andb]. rewrite <- Es at 2.
      rewrite squeeze_run; [reflexivity | apply span_ws_all | exact Ep]. }
    all: rewrite (scan_cons_miss _ _ _ _ _ M), render_text;
      rewrite IH by lia; reflexivity.
Qed.

Lemma sub_ws_before_punct (s : str) :
  Re.sub false TextFeatures.ws_before_punct [TGroup 1] s = Ok (squeeze s).
Proof.
  unfold Re.sub.
  change (forallb (tpl_ok TextFeatures.ws_before_punct) [TGroup 1]) with true.
  cbv iota. now rewrite (scan_ws_before_punct (List.length s) s None (le_n _)).
Qed.

End ReFacts.

(** * [normalize_transcript] *)

Module NormalizeFacts.

Import Re Passes ReFacts TextFeatures.

(** *** The source's three steps are the single pass *)

Lemma punct_follows_collapse (b : bool) (s : str) :
  punct_follows (collapse b s) = punct_follows s.
Proof.
  unfold punct_follows. revert b.
  induction s as [|c s IH]; intro b; [reflexivity|].
  cbn [collapse Str.lstrip]. destruct (Chars.isspace c) eqn:Ec.
  - destruct b; [apply IH|].
    cbn [Str.lstrip]. change (Chars.isspace " ") with true. cbv iota. apply IH.
  - cbn [Str.lstrip]. now rewrite Ec.
Qed.

Lemma squeeze_collapse_space (b : bool) (c : ascii) (s : str) :
  Chars.isspace c = true ->
  squeeze (collapse b (c :: s))
  = (if b || punct_follows s then [] else [" "%char]) ++ squeeze (collapse true s).
Proof.
  intro Ec. cbn [collapse]. rewrite Ec. destruct b; [reflexivity|].
  cbn [squeeze orb]. change (Chars.isspace " ") with true.
  rewrite punct_follows_collapse. cbn [andb].
  destruct (punct_follows s); reflexivity.
Qed.

Lemma squeeze_collapse_keep (b : bool) (c : ascii) (s : str) :
  Chars.isspace c = false ->
  squeeze (collapse b (c :: s)) = c :: squeeze (collapse false s).
Proof.
  intro Ec. cbn [collapse]. rewrite Ec. cbn [squeeze]. now rewrite Ec.
Qed.

Lemma punct_follows_space (c : ascii) (s : str) :
  Chars.isspace c = true -> punct_follows (c :: s) = punct_follows s.
Proof. intro Ec. unfold punct_follows. cbn [Str.lstrip]. now rewrite Ec. Qed.

Lemma punct_follows_keep (c : ascii) (s : str) :
  Chars.isspace c = false -> punct_follows (c :: s) = Spec.ispunct c.
Proof. intro Ec. unfold punct_follows. cbn [Str.lstrip]. now rewrite Ec. Qed.

(** After the first written character: the text still to come, with or
    without a pending space. *)
Lemma rstrip_squeeze_collapse (s : str) :
  Str.rstrip (squeeze (collapse false s)) = onepass false false s /\
  Str.rstrip ((if punct_follows s then [] else [" "%char]) ++ squeeze (collapse true s))
  = onepass false true s.
Proof.
  induction s as [|c s [IH0 IH1]]; [split; reflexivity|].
  destruct (Chars.isspace c) eqn:Ec.
  - rewrite !squeeze_collapse_space by exact Ec.
    rewrite (punct_follows_space c s Ec).
    cbn [onepass orb app]. rewrite Ec. split; exact IH1.
  - rewrite !squeeze_collapse_keep by exact Ec.
    rewrite (punct_follows_keep c s Ec).
    cbn [onepass]. rewrite Ec. cbn [negb andb].
    split.
    + rewrite rstrip_cons_keep by exact Ec. now rewrite IH0.
    + rewrite rstrip_keep by exact Ec. rewrite IH0.
      destruct (Spec.ispunct c); reflexivity.
Qed.

Lemma lstrip_squeeze_collapse (s : str) :
  Str.lstrip (squeeze (collapse true s)) = squeeze (collapse false (Str.lstrip s)).
Proof.
  induction s as [|c s IH]; [reflexivity|].
  destruct (Chars.isspace c) eqn:Ec.
  - rewrite squeeze_collapse_space by exact Ec. cbn [orb app Str.lstrip].
    now rewrite Ec.
  - rewrite squeeze_collapse_keep by exact Ec. cbn [Str.lstrip]. rewrite Ec.
    now rewrite squeeze_collapse_keep by exact Ec.
Qed.

Lemma onepass_first_lstrip (g : bool) (s : str) :
  onepass true g s = onepass true false (Str.lstrip s).
Proof.
  revert g. induction s as [|c s IH]; intro g; [reflexivity|].
  cbn [onepass Str.lstrip]. destruct (Chars.isspace c) eqn:Ec.
  - apply IH.
  - cbn [onepass]. now rewrite Ec.
Qed.

Lemma strip_squeeze_collapse (s : str) :
  Str.strip (squeeze (collapse false s)) = onepass true false s.
Proof.
  unfold Str.strip.
  assert (L : Str.lstrip (squeeze (collapse false s))
              = squeeze (collapse false (Str.lstrip s))).
  { destruct s as [|c s]; [reflexivity|].
    destruct (Chars.isspace c) eqn:Ec.
    - rewrite squeeze_collapse_space by exact Ec. cbn [orb Str.lstrip].
      rewrite Ec. rewrite <- lstrip_squeeze_collapse.
      destruct (punct_follows s); [reflexivity|].
      cbn [app Str.lstrip]. reflexivity.
    - rewrite squeeze_collapse_keep by exact Ec. cbn [Str.lstrip]. rewrite Ec.
      now rewrite squeeze_collapse_keep by exact Ec. }
  rewrite L, (onepass_first_lstrip false s).
  destruct (Str.lstrip s) as [|c r] eqn:El; [reflexivity|].
  pose proof (lstrip_head s c r El) as Ec.
  rewrite squeeze_collapse_keep by exact Ec.
  rewrite rstrip_cons_keep by exact Ec.
  rewrite (proj1 (rstrip_squeeze_collapse r)).
  cbn [onepass]. now rewrite Ec.
Qed.

Lemma normalize_transcript_onepass (text : str) :
  normalize_transcript text = Ok (onepass true false text).
Proof.
  unfold normalize_transcript. destruct text as [|c s]; [reflexivity|].
  cbn [Str.falsy]. rewrite sub_ws_run. cbn [bind].
  rewrite sub_ws_before_punct. cbn [bind].
  now rewrite strip_squeeze_collapse.
Qed.

(** *** The single pass is the specification's reading *)

Lemma words_from_head (s : str) :
  forall (c0 : ascii) (cur : str),
    exists x rest, Spec.words_from (c0 :: cur) s = (c0 :: x) :: rest.
Proof.
  induction s as [|c s IH]; intros c0 cur.
  - now exists cur, [].
  - cbn [Spec.words_from]. destruct (Chars.isspace c).
    + now exists cur, (Spec.words_from [] s).
    + apply (IH c0 (cur ++ [c])).
Qed.

Lemma join_cons (w : str) (rest : list str) :
  Spec.join (w :: rest) = w ++ after_word rest.
Proof. reflexivity. Qed.

Lemma join_words_onepass (s : str) :
  (forall (c0 : ascii) (cur : str),
     Spec.join (Spec.words_from (c0 :: cur) s) = (c0 :: cur) ++ onepass false false s) /\
  after_word (Spec.words_from [] s) = onepass false true s.
Proof.
  induction s as [|c s [IHa IHb]].
  - split; [|reflexivity]. intros c0 cur. cbn. now rewrite app_nil_r.
  - split.
    + intros c0 cur. cbn [Spec.words_from onepass].
      destruct (Chars.isspace c) eqn:Ec.
      * rewrite join_cons. now rewrite IHb.
      * change ((c0 :: cur) ++ [c]) with (c0 :: (cur ++ [c])).
        rewrite IHa. cbn [negb andb app]. now rewrite <- app_assoc.
    + cbn [Spec.words_from onepass]. destruct (Chars.isspace c) eqn:Ec.
      * exact IHb.
      * cbn [app negb andb].
        destruct (words_from_head s c []) as [x [rest E]].
        unfold after_word. rewrite E. cbn [Spec.starts_with_punct].
        rewrite <- E, (IHa c []).
        destruct (Spec.ispunct c); reflexivity.
Qed.

Lemma normalize_onepass (g : bool) (s : str) :
  Spec.normalize s = onepass true g s.
Proof.
  unfold Spec.normalize, Spec.words. revert g.
  induction s as [|c s IH]; intro g; [reflexivity|].
  cbn [Spec.words_from onepass]. destruct (Chars.isspace c) eqn:Ec.
  - apply IH.
  - cbn [app negb andb]. apply (proj1 (join_words_onepass s) c []).
Qed.

(** *** What the output looks like *)

Lemma onepass_content (f g : bool) (s : str) :
  filter (fun c => negb (Chars.isspace c)) (onepass f g s)
  = filter (fun c => negb (Chars.isspace c)) s.
Proof.
  revert f g. induction s as [|c s IH]; intros f g; [reflexivity|].
  cbn [onepass filter]. destruct (Chars.isspace c) eqn:Ec; cbn [negb].
  - apply IH.
  - destruct (negb f && g && negb (Spec.ispunct c));
      cbn [filter]; change (Chars.isspace " ") with true; cbn [negb];
      rewrite Ec; cbn [negb]; now rewrite IH.
Qed.

Lemma onepass_blank (f g : bool) (s : str) :
  forallb Chars.isspace s = true -> onepass f g s = [].
Proof.
  revert g. induction s as [|c s IH]; intros g H; [reflexivity|].
  cbn in H. apply andb_prop in H as [Ec H].
  cbn [onepass]. rewrite Ec. now apply IH.
Qed.

Lemma onepass_spaced (f g : bool) (s : str) : spaced (onepass f g s) = true.
Proof.
  revert f g. induction s as [|c s IH]; intros f g; [reflexivity|].
  cbn [onepass]. destruct (Chars.isspace c) eqn:Ec; [apply IH|].
  destruct (negb f && g && negb (Spec.ispunct c)) eqn:Es.
  - apply andb_prop in Es as [_ Ep].
    cbn [spaced]. change (Chars.isspace " ") with true. cbv iota.
    rewrite Ec, Ep, IH. reflexivity.
  - cbn [spaced]. rewrite Ec, IH. reflexivity.
Qed.

Lemma onepass_first_head (g : bool) (s : str) (a : ascii) (l : str) :
  onepass true g s = a :: l -> Chars.isspace a = false.
Proof.
  revert g. induction s as [|c s IH]; intro g; [discriminate|].
  cbn [onepass]. destruct (Chars.isspace c) eqn:Ec; [apply IH|].
  cbn [negb andb]. intro H. injection H as <- _. exact Ec.
Qed.

Lemma spaced_app (l r : str) : spaced (l ++ r) = true -> spaced r = true.
Proof.
  induction l as [|c l IH]; [trivial|].
  cbn [app spaced]. intro H. apply andb_prop in H as [_ H]. now apply IH.
Qed.

Lemma spaced_tidy (t : str) :
  spaced t = true ->
  (forall a l, t = a :: l -> Chars.isspace a = false) ->
  Spec.tidy t.
Proof.
  intros Hs Hh. split; [|split; [exact Hh | split]].
  - intros c Hin Hc. apply in_split in Hin as [l1 [l2 ->]].
    apply spaced_app in Hs. cbn [spaced] in Hs. rewrite Hc in Hs.
    apply andb_prop in Hs as [Hs _]. apply andb_prop in Hs as [Hs _].
    now apply Ascii.eqb_eq in Hs.
  - intros l a ->. apply spaced_app in Hs. cbn [spaced] in Hs.
    destruct (Chars.isspace a); [|reflexivity].
    rewrite andb_false_r in Hs. discriminate.
  - intros l1 a b l2 -> Ha. apply spaced_app in Hs. cbn [spaced] in Hs.
    rewrite Ha in Hs.
    apply andb_prop in Hs as [Hs _]. apply andb_prop in Hs as [_ Hs].
    apply andb_prop in Hs as [Hb Hp].
    split; now apply negb_true_iff.
Qed.

(** C8: [normalize_transcript] returns the words of the text joined by
    single spaces, with no space before a word that starts with one of
    [. , ! ? ; :] and none at either end: every run of whitespace has become
    one space or has gone, no whitespace is left in front of a punctuation
    mark or at an end, the other characters are unchanged and in order,
    empty and all-whitespace texts give the empty string, and
    ["  Hello   world  .  "] gives ["Hello world."]. *)
Theorem normalize_transcript_spec :
  (forall text : str,
     returns (normalize_transcript text) (fun t =>
       t = Spec.normalize text /\
       Spec.tidy t /\
       filter (fun c => negb (Chars.isspace c)) t
       = filter (fun c => negb (Chars.isspace c)) text)) /\
  (forall text : str,
     forallb Chars.isspace text = true -> normalize_transcript text = Ok []) /\
  normalize_transcript (pystr "  Hello   world  .  ") = Ok (pystr "Hello world.").
Proof.
  split; [|split].
  - intro text. exists (onepass true false text).
    split; [apply normalize_transcript_onepass|].
    split; [symmetry; apply normalize_onepass|].
    split; [|apply onepass_content].
    apply spaced_tidy; [apply onepass_spaced|].
    intros a l. apply onepass_first_head.
  - intros text H. rewrite normalize_transcript_onepass.
    now rewrite onepass_blank.
  - reflexivity.
Qed.

Lemma normalize_transcript_spec_witness :
  normalize_transcript [" "; "009"; "010"; " "]%char = Ok [].
Proof.
  apply (proj1 (proj2 normalize_transcript_spec)). reflexivity.
Defined.

End NormalizeFacts.

(** * [filler_count] and [grammar_errors] *)

Module TextFacts.

Import Re Passes ReFacts TextFeatures PyFacts.

(** *** Fillers *)

Lemma extend_all {A B : Type} (f : A -> list B) (l : list A) (acc : list B) :
  fold_left (fun acc x => acc ++ f x) l acc = acc ++ flat_map f l.
Proof.
  revert acc. induction l as [|x l IH]; intro acc; cbn.
  - now rewrite app_nil_r.
  - now rewrite IH, app_assoc.
Qed.

Lemma filler_count_value (text : str) :
  no_text text = false ->
  let normalized_text := collapse false (Str.strip (Str.lower text)) in
  let detected := flat_map (fun p => Re.findall true p normalized_text) filler_patterns in
  filler_count text = Ok (Z.of_nat (List.length detected), detected).
Proof.
  intro H. unfold filler_count. rewrite H, sub_ws_run. cbn [bind].
  now rewrite extend_all.
Qed.

(** C5: on ["Um, I think, you know, it's like really good."] the fillers
    are counted as 3 and listed as ["you know"], ["um"], ["like"]: in the
    order of their patterns in [filler_patterns] (numbers 0, 9 and 15),
    where the phrases come first, not in the order of the text; in
    general the list is the matches of the first pattern, then those of
    the second, and so on. *)
Theorem filler_count_pattern_order :
  filler_count (pystr "Um, I think, you know, it's like really good.")
  = Ok (3%Z, [pystr "you know"; pystr "um"; pystr "like"]) /\
  nth_error filler_patterns 0 = Some (b ++ lit "you know" ++ b) /\
  nth_error filler_patterns 9 = Some (b ++ lit "u" ++ plus "m" ++ b) /\
  nth_error filler_patterns 15 = Some (b ++ lit "like" ++ b) /\
  (forall text : str,
     no_text text = false ->
     exists normalized_text,
       Re.sub false ws_run [TLit (pystr " ")] (Str.strip (Str.lower text))
       = Ok normalized_text /\
       returns (filler_count text) (fun r =>
         snd r = flat_map (fun p => Re.findall true p normalized_text) filler_patterns /\
         fst r = Z.of_nat (List.length (snd r)))).
Proof.
  split; [vm_compute; reflexivity|].
  split; [reflexivity|]. split; [reflexivity|]. split; [reflexivity|].
  intros text H. eexists. split; [apply sub_ws_run|].
  eexists. split; [now apply filler_count_value|].
  split; reflexivity.
Qed.

Lemma filler_count_pattern_order_witness :
  exists normalized_text,
    Re.sub false ws_run [TLit (pystr " ")] (Str.strip (Str.lower (pystr "So,  like, UM")))
    = Ok normalized_text /\
    returns (filler_count (pystr "So,  like, UM")) (fun r =>
      snd r = flat_map (fun p => Re.findall true p normalized_text) filler_patterns /\
      fst r = Z.of_nat (List.length (snd r))).
Proof.
  apply (proj2 (proj2 (proj2 (proj2 filler_count_pattern_order)))).
  reflexivity.
Defined.

Lemma filler_count_no_text (text : str) :
  no_text text = true -> filler_count text = Ok (0%Z, []).
Proof. intro H. unfold filler_count. now rewrite H. Qed.

Lemma filler_count_total (text : str) :
  returns (filler_count text) (fun r => fst r = Z.of_nat (List.length (snd r))).
Proof.
  destruct (no_text text) eqn:E.
  - exists (0%Z, []). split; [now apply filler_count_no_text | reflexivity].
  - eexists. split; [now apply filler_count_value | reflexivity].
Qed.

End TextFacts.

(** * The grammar engine and the totality of the core *)

Module CoreFacts.

Import Scoring TextFeatures PyFacts ScoringFacts NormalizeFacts TextFacts.

Open Scope Q_scope.

Section EngineFacts.

Variable Tool : Type.
Variable LanguageTool : str -> result Tool.
Variable check : Tool -> str -> result (list lt_match).

Lemma grammar_errors_raise (text language : str) (w : world Tool) (e : exn) :
  engine_answer LanguageTool check text language w = Raise e ->
  fst (grammar_errors LanguageTool check text language w) = (0%Z, []).
Proof.
  unfold engine_answer, grammar_errors.
  intro H. destruct (no_text text); [reflexivity|].
  destruct (_get_language_tool LanguageTool language w) as [tool w'].
  cbn [fst] in H. destruct tool as [t | e']; cbn [bind] in *.
  - rewrite H. reflexivity.
  - reflexivity.
Qed.

Lemma grammar_errors_clean (text language : str) (w : world Tool) :
  engine_answer LanguageTool check text language w = Ok [] ->
  fst (grammar_errors LanguageTool check text language w) = (0%Z, []).
Proof.
  unfold engine_answer, grammar_errors.
  intro H. destruct (no_text text); [reflexivity|].
  destruct (_get_language_tool LanguageTool language w) as [tool w'].
  cbn [fst] in H. destruct tool as [t | e']; cbn [bind] in *.
  - rewrite H. reflexivity.
  - discriminate.
Qed.

End EngineFacts.

Lemma normalize_grammar_errors_zero (word_count : Z) :
  returns (normalize_grammar_errors 0 word_count) (fun p => p == 0).
Proof.
  destruct (Z.leb_spec word_count 0) as [H | H].
  - exists 0.0. unfold normalize_grammar_errors. apply Z.leb_le in H. rewrite H.
    split; reflexivity.
  - eexists. split; [now apply normalize_grammar_errors_value|].
    apply clamp_01_low. change (inject_Z 0) with 0.
    unfold Qdiv. rewrite !Qmult_0_l. apply Qle_refl.
Qed.



End CoreFacts.

(** * The source over binary64: digits and range *)

Module Binary64Facts.

Import B64.

(** *** Comparisons *)

Lemma ltb_leb (x y : float) : ltb x y = true -> leb x y = true.
Proof.
  unfold ltb, leb, SFltb, SFleb.
  destruct (SFcompare x y) as [[| |]|]; now intros.
Qed.

Lemma ltb_not_nan_r (x y : float) : ltb x y = true -> is_nan y = false.
Proof. destruct x as [| [|] | |[|] ? ?], y; try reflexivity; discriminate. Qed.

Lemma ltb_not_nan_l (x y : float) : ltb x y = true -> is_nan x = false.
Proof. destruct x; try reflexivity; discriminate. Qed.

Lemma leb_zero_not_zero (x : float) : leb x (lit 0 1) = false -> is_zero x = false.
Proof. destruct x as [[|] | | |]; try reflexivity; discriminate. Qed.

(** *** Multiplication commutes *)

Lemma mul_comm (x y : float) : mul x y = mul y x.
Proof.
  unfold mul, SFmul.
  destruct x as [sx | sx | | sx mx ex], y as [sy | sy | | sy my ey];
    try reflexivity; try (rewrite (xorb_comm sx sy); reflexivity).
  rewrite (xorb_comm sx sy), (Pos.mul_comm mx my), (Z.add_comm ex ey). reflexivity.
Qed.

(** *** Rounding to nearest never produces NaN *)

Lemma shr_1_nonneg (mrs : shr_record) : (0 <= shr_m mrs)%Z -> (0 <= shr_m (shr_1 mrs))%Z.
Proof.
  destruct mrs as [m r s]. simpl.
  destruct m as [| [p | p |] | p]; simpl; lia.
Qed.

Lemma shr_nonneg (mrs : shr_record) (e n : Z) :
  (0 <= shr_m mrs)%Z -> (0 <= shr_m (fst (shr mrs e n)))%Z.
Proof.
  intro H. unfold shr. destruct n as [| p | p]; simpl; try exact H.
  revert mrs H. induction p as [p IH | p IH |]; intros mrs H; simpl.
  - now apply IH, IH, shr_1_nonneg.
  - now apply IH, IH.
  - now apply shr_1_nonneg.
Qed.

Lemma shr_fexp_nonneg (m e : Z) (l : location) :
  (0 <= m)%Z -> (0 <= shr_m (fst (shr_fexp prec emax m e l)))%Z.
Proof.
  intro H. unfold shr_fexp. apply shr_nonneg.
  unfold shr_record_of_loc. destruct l as [| [| |]]; exact H.
Qed.

Lemma round_nearest_even_nonneg (m : Z) (l : location) :
  (0 <= m)%Z -> (0 <= round_nearest_even m l)%Z.
Proof.
  intro H. unfold round_nearest_even.
  destruct l as [| [| |]]; try destruct (Z.even m); lia.
Qed.

Lemma binary_round_aux_not_nan (s : bool) (m e : Z) (l : location) :
  (0 <= m)%Z -> is_nan (binary_round_aux prec emax s m e l) = false.
Proof.
  intro H. unfold binary_round_aux.
  pose proof (shr_fexp_nonneg m e l H) as H1.
  destruct (shr_fexp prec emax m e l) as [mrs' e']. simpl in H1.
  pose proof (shr_fexp_nonneg _ e' loc_Exact
                (round_nearest_even_nonneg _ (loc_of_shr_record mrs') H1)) as H2.
  destruct (shr_fexp prec emax _ e' loc_Exact) as [mrs'' e'']. simpl in H2.
  destruct (shr_m mrs'') as [| p | p]; [reflexivity | | lia].
  destruct (e'' <=? emax - prec)%Z; reflexivity.
Qed.

Lemma ratio_not_nan (s : bool) (n d : positive) : is_nan (ratio s n d) = false.
Proof.
  unfold ratio, SFdiv_core_binary.
  set (m' := match _ with Z0 => _ | Zpos _ => _ | Zneg _ => _ end).
  assert (Hm : (0 <= m')%Z).
  { subst m'. destruct (_ - _ - _)%Z; [lia | | lia].
    apply Z.shiftl_nonneg. lia. }
  pose proof (Z.div_pos m' (Zpos d) Hm ltac:(lia)) as Hq.
  unfold Z.div in Hq.
  destruct (Z.div_eucl m' (Zpos d)) as [q r]. simpl in Hq.
  now apply binary_round_aux_not_nan.
Qed.

Lemma lit_not_nan (n : Z) (d : positive) : is_nan (lit n d) = false.
Proof. destruct n; [reflexivity | apply ratio_not_nan | apply ratio_not_nan]. Qed.

Lemma round_not_nan (x : float) (n : nat) : is_nan x = false -> is_nan (round x n) = false.
Proof.
  intro H. destruct x as [s | s | | s m e]; try exact H.
  unfold round.
  destruct (Py.round_half_even _); [reflexivity | apply ratio_not_nan | apply ratio_not_nan].
Qed.

Lemma max_not_nan (a b : float) : is_nan a = false -> is_nan (max a b) = false.
Proof.
  intro H. unfold max. destruct (ltb a b) eqn:E; [|exact H].
  now apply ltb_not_nan_r in E.
Qed.


(** *** The constants *)

Lemma overflow_bound_pos : (0 < overflow_bound)%Z.
Proof. reflexivity. Qed.

Lemma zero_value : lit 0 1 = S754_zero false.
Proof. reflexivity. Qed.

Lemma one_value : lit 1 1 = S754_finite false 4503599627370496 (-52).
Proof. vm_compute. reflexivity. Qed.

Lemma MAX_GRAMMAR_ERRORS_PER_100_nonzero : is_zero Scoring64.MAX_GRAMMAR_ERRORS_PER_100 = false.
Proof. vm_compute. reflexivity. Qed.

Lemma MAX_FILLERS_PER_100_nonzero : is_zero Scoring64.MAX_FILLERS_PER_100 = false.
Proof. vm_compute. reflexivity. Qed.

Lemma MAX_WER_nonzero : is_zero Scoring64.MAX_WER = false.
Proof. vm_compute. reflexivity. Qed.

Lemma slow_distance_nonzero :
  is_zero (sub Scoring64.IDEAL_WPM_MIN Scoring64.VERY_SLOW_WPM) = false.
Proof. vm_compute. reflexivity. Qed.

Lemma fast_distance_nonzero :
  is_zero (sub Scoring64.VERY_FAST_WPM Scoring64.IDEAL_WPM_MAX) = false.
Proof. vm_compute. reflexivity. Qed.

(** *** [clamp_01] *)

Lemma clamp_01_range (x : float) :
  leb (lit 0 1) (Scoring64.clamp_01 x) = true /\
  leb (Scoring64.clamp_01 x) (lit 1 1) = true.
Proof.
  unfold Scoring64.clamp_01, max, min.
  destruct (ltb x (lit 1 1)) eqn:E1.
  - destruct (ltb (lit 0 1) x) eqn:E0.
    + split; now apply ltb_leb.
    + split; vm_compute; reflexivity.
  - replace (ltb (lit 0 1) (lit 1 1)) with true by (vm_compute; reflexivity).
    split; vm_compute; reflexivity.
Qed.

Lemma zero_unit_interval : between (lit 0 1) (lit 1 1) (lit 0 1).
Proof. split; vm_compute; reflexivity. Qed.

(** *** The division of two ints *)

Lemma int_truediv_returns (a b : Z) :
  (0 < b)%Z ->
  (exists r, int_truediv a b = Ok r) <-> (Z.abs a < overflow_bound * b)%Z.
Proof.
  intro Hb. unfold int_truediv.
  destruct (Z.eqb_spec b 0) as [E | _]; [lia|].
  pose proof overflow_bound_pos as Hp.
  destruct (Z.abs b) as [| q | q] eqn:Eb; try lia.
  assert (Eq : b = Zpos q) by lia.
  destruct (Z.abs a) as [| p | p] eqn:Ea.
  - split; [intros _; nia | intros _; eexists; reflexivity].
  - destruct (Z.leb_spec (overflow_bound * Zpos q) (Zpos p)) as [H | H].
    + split; [intros [r Hr]; discriminate Hr | intro H'; exfalso; subst b; lia].
    + split; [intros _; subst b; exact H | intros _; eexists; reflexivity].
  - lia.
Qed.

Lemma int_truediv_overflow (a b : Z) :
  (0 < b)%Z -> (overflow_bound * b <= Z.abs a)%Z ->
  int_truediv a b
  = Raise (OverflowError "integer division result too large for a float").
Proof.
  intros Hb H. unfold int_truediv.
  destruct (Z.eqb_spec b 0) as [E | _]; [lia|].
  pose proof overflow_bound_pos as Hp.
  destruct (Z.abs b) as [| q | q] eqn:Eb; try lia.
  assert (Eq : b = Zpos q) by lia. subst b.
  destruct (Z.abs a) as [| p | p] eqn:Ea; try nia.
  destruct (Z.leb_spec (overflow_bound * Zpos q) (Zpos p)) as [H' | H']; [reflexivity | lia].
Qed.

(** *** The penalties *)

Lemma normalize_grammar_errors_no_words (error_count word_count : Z) :
  (word_count <= 0)%Z ->
  Scoring64.normalize_grammar_errors error_count word_count = Ok (lit 0 1).
Proof.
  intro H. unfold Scoring64.normalize_grammar_errors.
  apply Z.leb_le in H. rewrite H. reflexivity.
Qed.

Lemma normalize_fillers_no_words (filler_count word_count : Z) :
  (word_count <= 0)%Z ->
  Scoring64.normalize_fillers filler_count word_count = Ok (lit 0 1).
Proof.
  intro H. unfold Scoring64.normalize_fillers.
  apply Z.leb_le in H. rewrite H. reflexivity.
Qed.

Lemma normalize_grammar_errors_value_float (error_count word_count : Z) (r : float) :
  (0 < word_count)%Z -> int_truediv error_count word_count = Ok r ->
  Scoring64.normalize_grammar_errors error_count word_count
  = Ok (Scoring64.clamp_01
          (div (mul r (lit 100 1)) Scoring64.MAX_GRAMMAR_ERRORS_PER_100)).
Proof.
  intros H E. unfold Scoring64.normalize_grammar_errors.
  apply Z.leb_gt in H. rewrite H, E. cbn [bind].
  unfold truediv. rewrite MAX_GRAMMAR_ERRORS_PER_100_nonzero. reflexivity.
Qed.

Lemma normalize_fillers_value_float (filler_count word_count : Z) (r : float) :
  (0 < word_count)%Z -> int_truediv filler_count word_count = Ok r ->
  Scoring64.normalize_fillers filler_count word_count
  = Ok (Scoring64.clamp_01 (div (mul r (lit 100 1)) Scoring64.MAX_FILLERS_PER_100)).
Proof.
  intros H E. unfold Scoring64.normalize_fillers.
  apply Z.leb_gt in H. rewrite H, E. cbn [bind].
  unfold truediv. rewrite MAX_FILLERS_PER_100_nonzero. reflexivity.
Qed.

Lemma normalize_grammar_errors_raises (error_count word_count : Z) (e : exn) :
  (0 < word_count)%Z -> int_truediv error_count word_count = Raise e ->
  Scoring64.normalize_grammar_errors error_count word_count = Raise e.
Proof.
  intros H E. unfold Scoring64.normalize_grammar_errors.
  apply Z.leb_gt in H. rewrite H, E. reflexivity.
Qed.

Lemma normalize_fillers_raises (filler_count word_count : Z) (e : exn) :
  (0 < word_count)%Z -> int_truediv filler_count word_count = Raise e ->
  Scoring64.normalize_fillers filler_count word_count = Raise e.
Proof.
  intros H E. unfold Scoring64.normalize_fillers.
  apply Z.leb_gt in H. rewrite H, E. reflexivity.
Qed.

Lemma normalize_grammar_errors_returns (error_count word_count : Z) :
  (exists p, Scoring64.normalize_grammar_errors error_count word_count = Ok p)
  <-> ((word_count <= 0)%Z \/ (Z.abs error_count < overflow_bound * word_count)%Z).
Proof.
  destruct (Z.le_gt_cases word_count 0) as [H | H].
  - split; [now left | intros _; eexists; now apply normalize_grammar_errors_no_words].
  - rewrite <- (int_truediv_returns error_count word_count H).
    destruct (int_truediv error_count word_count) as [r | e] eqn:E.
    + split; intros _; [right; now exists r | eexists; apply (normalize_grammar_errors_value_float _ _ r H E)].
    + rewrite (normalize_grammar_errors_raises _ _ e H E).
      split; [intros [p Hp]; discriminate Hp | intros [Hw | [r Hr]]; [lia | discriminate Hr]].
Qed.

Lemma normalize_fillers_returns (filler_count word_count : Z) :
  (exists p, Scoring64.normalize_fillers filler_count word_count = Ok p)
  <-> ((word_count <= 0)%Z \/ (Z.abs filler_count < overflow_bound * word_count)%Z).
Proof.
  destruct (Z.le_gt_cases word_count 0) as [H | H].
  - split; [now left | intros _; eexists; now apply normalize_fillers_no_words].
  - rewrite <- (int_truediv_returns filler_count word_count H).
    destruct (int_truediv filler_count word_count) as [r | e] eqn:E.
    + split; intros _; [right; now exists r | eexists; apply (normalize_fillers_value_float _ _ r H E)].
    + rewrite (normalize_fillers_raises _ _ e H E).
      split; [intros [p Hp]; discriminate Hp | intros [Hw | [r Hr]]; [lia | discriminate Hr]].
Qed.

Lemma normalize_wer_unit (wer : option float) :
  returns (Scoring64.normalize_wer wer) (between (lit 0 1) (lit 1 1)).
Proof.
  destruct wer as [wer|]; [|exists (lit 0 1); split; [reflexivity | apply zero_unit_interval]].
  unfold Scoring64.normalize_wer.
  destruct (ltb wer (lit 0 1)); [exists (lit 0 1); split; [reflexivity | apply zero_unit_interval]|].
  unfold truediv. rewrite MAX_WER_nonzero. cbn [bind].
  eexists. split; [reflexivity | apply clamp_01_range].
Qed.

Lemma fluency_penalty_unit (wpm : option float) :
  returns (Scoring64.fluency_penalty wpm) (between (lit 0 1) (lit 1 1)).
Proof.
  assert (H0 : returns (@Ok float (lit 0 1)) (between (lit 0 1) (lit 1 1)))
    by (exists (lit 0 1); split; [reflexivity | apply zero_unit_interval]).
  destruct wpm as [wpm|]; [|exact H0].
  unfold Scoring64.fluency_penalty.
  destruct (leb wpm (lit 0 1)); [exact H0|].
  destruct (leb Scoring64.IDEAL_WPM_MIN wpm && leb wpm Scoring64.IDEAL_WPM_MAX); [exact H0|].
  destruct (ltb wpm Scoring64.IDEAL_WPM_MIN).
  - unfold truediv. rewrite slow_distance_nonzero. cbn [bind].
    eexists. split; [reflexivity | apply clamp_01_range].
  - destruct (ltb Scoring64.IDEAL_WPM_MAX wpm); [|exact H0].
    unfold truediv. rewrite fast_distance_nonzero. cbn [bind].
    eexists. split; [reflexivity | apply clamp_01_range].
Qed.

(** *** [words_per_minute] *)

Lemma of_int_value (n : Z) : (Z.abs n < overflow_bound)%Z -> of_int n = Ok (nearest n).
Proof.
  intro H. unfold of_int.
  destruct (Z.leb_spec overflow_bound (Z.abs n)); [lia | reflexivity].
Qed.

Lemma of_int_overflow (n : Z) :
  (overflow_bound <= Z.abs n)%Z ->
  of_int n = Raise (OverflowError "int too large to convert to float").
Proof.
  intro H. unfold of_int.
  destruct (Z.leb_spec overflow_bound (Z.abs n)); [reflexivity | lia].
Qed.

Lemma words_per_minute_none (word_count : Z) (duration_sec : float) :
  leb duration_sec (lit 0 1) = true \/ (word_count < 0)%Z ->
  TextFeatures.words_per_minute word_count duration_sec = Ok None.
Proof.
  intro H. unfold TextFeatures.words_per_minute.
  destruct (leb duration_sec (lit 0 1)); [reflexivity|].
  destruct (Z.ltb_spec word_count 0); [reflexivity|].
  destruct H as [H | H]; [discriminate H | lia].
Qed.

Lemma words_per_minute_value (word_count : Z) (duration_sec : float) :
  leb duration_sec (lit 0 1) = false -> (0 <= word_count < overflow_bound)%Z ->
  TextFeatures.words_per_minute word_count duration_sec
  = Ok (Some (round (mul (div (nearest word_count) duration_sec) (lit 60 1)) 2)).
Proof.
  intros Hd Hw. unfold TextFeatures.words_per_minute. rewrite Hd.
  destruct (Z.ltb_spec word_count 0); [lia|].
  rewrite of_int_value by lia. cbn [bind].
  unfold truediv. rewrite (leb_zero_not_zero _ Hd). reflexivity.
Qed.

Lemma words_per_minute_overflow (word_count : Z) (duration_sec : float) :
  leb duration_sec (lit 0 1) = false -> (overflow_bound <= word_count)%Z ->
  TextFeatures.words_per_minute word_count duration_sec
  = Raise (OverflowError "int too large to convert to float").
Proof.
  intros Hd Hw. unfold TextFeatures.words_per_minute. rewrite Hd.
  pose proof overflow_bound_pos.
  destruct (Z.ltb_spec word_count 0); [lia|].
  rewrite of_int_overflow by lia. reflexivity.
Qed.

(** *** The final score *)

Lemma calculate_final_score_not_nan (g f w fl : float) :
  is_nan (Scoring64.calculate_final_score g f w fl) = false.
Proof.
  unfold Scoring64.calculate_final_score.
  apply round_not_nan, max_not_nan. reflexivity.
Qed.


Lemma normalize_grammar_errors_unit (error_count word_count : Z) :
  (Z.abs error_count < overflow_bound)%Z ->
  returns (Scoring64.normalize_grammar_errors error_count word_count)
          (between (lit 0 1) (lit 1 1)).
Proof.
  intro H. destruct (Z.le_gt_cases word_count 0) as [Hw | Hw].
  - exists (lit 0 1).
    split; [now apply normalize_grammar_errors_no_words | apply zero_unit_interval].
  - destruct (proj2 (int_truediv_returns error_count word_count Hw)) as [r E].
    { pose proof overflow_bound_pos. nia. }
    eexists. split; [apply (normalize_grammar_errors_value_float _ _ r Hw E)|].
    apply clamp_01_range.
Qed.

Lemma normalize_fillers_unit (filler_count word_count : Z) :
  (Z.abs filler_count < overflow_bound)%Z ->
  returns (Scoring64.normalize_fillers filler_count word_count)
          (between (lit 0 1) (lit 1 1)).
Proof.
  intro H. destruct (Z.le_gt_cases word_count 0) as [Hw | Hw].
  - exists (lit 0 1).
    split; [now apply normalize_fillers_no_words | apply zero_unit_interval].
  - destruct (proj2 (int_truediv_returns filler_count word_count Hw)) as [r E].
    { pose proof overflow_bound_pos. nia. }
    eexists. split; [apply (normalize_fillers_value_float _ _ r Hw E)|].
    apply clamp_01_range.
Qed.

(** ** The claims that depend on the digits and on the range of the floats *)


(** The digits are those of the floats: at the penalties 31/32 and 29/32
    for grammar and fillers, the exact value of the formula is 41.875 and
    45.625, which the exact reading rounds to 41.88 and 45.62; the floats
    of the source are just below and just above, and the score is 41.87 and
    45.63. *)
Lemma calculate_final_score_near_ties :
  Scoring64.calculate_final_score (lit 31 32) (lit 31 32) (lit 0 1) (lit 0 1) = lit 4187 100 /\
  Scoring64.calculate_final_score (lit 29 32) (lit 29 32) (lit 0 1) (lit 0 1) = lit 4563 100 /\
  (Scoring.calculate_final_score (31 # 32) (31 # 32) 0 0 == 41.88)%Q /\
  (Scoring.calculate_final_score (29 # 32) (29 # 32) 0 0 == 45.62)%Q.
Proof. repeat split; vm_compute; reflexivity. Qed.

(** C6, as stated, fails: with a word count of [10 ** 400] and a duration
    of one second, neither [duration_sec <= 0] nor [word_count < 0] holds,
    and [words_per_minute] returns no rate: the conversion of the count to
    a float raises [OverflowError]. *)
Lemma words_per_minute_large_count_raises :
  leb (lit 1 1) (lit 0 1) = false /\
  (10 ^ 400 <? 0)%Z = false /\
  TextFeatures.words_per_minute (10 ^ 400) (lit 1 1)
  = Raise (OverflowError "int too large to convert to float") /\
  ~ (exists r, TextFeatures.words_per_minute (10 ^ 400) (lit 1 1) = Ok r).
Proof.
  assert (E : TextFeatures.words_per_minute (10 ^ 400) (lit 1 1)
              = Raise (OverflowError "int too large to convert to float"))
    by (vm_compute; reflexivity).
  split; [vm_compute; reflexivity|].
  split; [vm_compute; reflexivity|].
  split; [exact E|].
  intros [r H]. rewrite E in H. discriminate H.
Qed.

(** C6, amended: [words_per_minute] returns [None] exactly when
    [duration_sec <= 0] or [word_count < 0]; otherwise, for a word count
    below [2 ** 1024 - 2 ** 970], it returns the float
    [(word_count / duration_sec) * 60] rounded to 2 decimals, and for a
    larger word count it raises [OverflowError].
    [words_per_minute(50, 30.0)] is 100.0, [words_per_minute(10, 0)] is
    [None], and [words_per_minute(41, 160.0)], whose exact value is 15.375,
    is 15.37. *)
Theorem words_per_minute_float_spec :
  (forall (word_count : Z) (duration_sec : float),
     TextFeatures.words_per_minute word_count duration_sec = Ok None
     <-> (leb duration_sec (lit 0 1) = true \/ (word_count < 0)%Z)) /\
  (forall (word_count : Z) (duration_sec : float),
     leb duration_sec (lit 0 1) = false ->
     (0 <= word_count < overflow_bound)%Z ->
     TextFeatures.words_per_minute word_count duration_sec
     = Ok (Some (round (mul (div (nearest word_count) duration_sec) (lit 60 1)) 2))) /\
  (forall (word_count : Z) (duration_sec : float),
     leb duration_sec (lit 0 1) = false ->
     (overflow_bound <= word_count)%Z ->
     TextFeatures.words_per_minute word_count duration_sec
     = Raise (OverflowError "int too large to convert to float")) /\
  TextFeatures.words_per_minute 50 (lit 30 1) = Ok (Some (lit 100 1)) /\
  TextFeatures.words_per_minute 10 (lit 0 1) = Ok None /\
  TextFeatures.words_per_minute 41 (lit 160 1) = Ok (Some (lit 1537 100)).
Proof.
  split; [|split; [|split; [|repeat split; vm_compute; reflexivity]]].
  - intros wc d. split; [|apply words_per_minute_none].
    intro H. destruct (leb d (lit 0 1)) eqn:Ed; [now left|].
    destruct (Z.lt_ge_cases wc 0) as [Hw | Hw]; [now right|].
    exfalso. destruct (Z.lt_ge_cases wc overflow_bound) as [Hb | Hb].
    + rewrite words_per_minute_value in H by (try assumption; lia). discriminate H.
    + rewrite words_per_minute_overflow in H by assumption. discriminate H.
  - exact words_per_minute_value.
  - exact words_per_minute_overflow.
Qed.

Lemma words_per_minute_float_spec_witness :
  TextFeatures.words_per_minute 120 (lit 60 1)
  = Ok (Some (round (mul (div (nearest 120) (lit 60 1)) (lit 60 1)) 2)) /\
  TextFeatures.words_per_minute (2 ^ 1024) (lit 60 1)
  = Raise (OverflowError "int too large to convert to float").
Proof.
  split.
  - apply (proj1 (proj2 words_per_minute_float_spec));
      [vm_compute; reflexivity | split; [lia | vm_compute; reflexivity]].
  - apply (proj1 (proj2 (proj2 words_per_minute_float_spec)));
      [vm_compute; reflexivity | vm_compute; discriminate].
Defined.

(** C9, as stated, fails: the counts are ints, and an error count of
    [10 ** 400] in a transcript of one word makes
    [normalize_grammar_errors] raise [OverflowError], since the quotient is
    outside the range of the floats. *)
Lemma normalize_grammar_errors_large_count_raises :
  Scoring64.normalize_grammar_errors (10 ^ 400) 1
  = Raise (OverflowError "integer division result too large for a float") /\
  ~ (exists p, Scoring64.normalize_grammar_errors (10 ^ 400) 1 = Ok p).
Proof.
  assert (E : Scoring64.normalize_grammar_errors (10 ^ 400) 1
              = Raise (OverflowError "integer division result too large for a float"))
    by (vm_compute; reflexivity).
  split; [exact E|].
  intros [p H]. rewrite E in H. discriminate H.
Qed.

(** C9, amended: the functions of the core return a value on every input
    within the range of the floats, and raise [OverflowError] beyond it.
    [normalize_transcript] and [filler_count] return on every text, and a
    text without content has no fillers.  [normalize_grammar_errors] and
    [normalize_fillers] return exactly when [word_count <= 0] or the count
    is below [(2 ** 1024 - 2 ** 970) * word_count] in absolute value;
    [words_per_minute] returns exactly when [duration_sec <= 0] or
    [word_count] is below [2 ** 1024 - 2 ** 970].  [normalize_wer] and
    [fluency_penalty] return on every float and on [None], infinities and
    NaN included.  [calculate_final_score] and
    [generate_score_explanation] use no operation that can raise; the score
    is a number (never NaN) on every four floats. *)
Theorem core_functions_total_in_float_range :
  (forall text : str, exists t, TextFeatures.normalize_transcript text = Ok t) /\
  (forall text : str, exists n l, TextFeatures.filler_count text = Ok (n, l)) /\
  (forall text : str,
     TextFeatures.no_text text = true -> TextFeatures.filler_count text = Ok (0%Z, [])) /\
  (forall (word_count : Z) (duration_sec : float),
     (exists r, TextFeatures.words_per_minute word_count duration_sec = Ok r)
     <-> (leb duration_sec (lit 0 1) = true \/ (word_count < overflow_bound)%Z)) /\
  (forall error_count word_count : Z,
     (exists p, Scoring64.normalize_grammar_errors error_count word_count = Ok p)
     <-> ((word_count <= 0)%Z \/ (Z.abs error_count < overflow_bound * word_count)%Z)) /\
  (forall filler_count word_count : Z,
     (exists p, Scoring64.normalize_fillers filler_count word_count = Ok p)
     <-> ((word_count <= 0)%Z \/ (Z.abs filler_count < overflow_bound * word_count)%Z)) /\
  (forall wer : option float, exists p, Scoring64.normalize_wer wer = Ok p) /\
  (forall wpm : option float, exists p, Scoring64.fluency_penalty wpm = Ok p) /\
  (forall g f w fl : float, is_nan (Scoring64.calculate_final_score g f w fl) = false) /\
  (forall (float_str : float -> str) (g f w fl final : float),
     exists s, Scoring64.generate_score_explanation float_str g f w fl final = s).
Proof.
  repeat apply conj.
  - intro text. eexists. apply NormalizeFacts.normalize_transcript_onepass.
  - intro text. destruct (TextFacts.filler_count_total text) as [[n l] [E _]]. now exists n, l.
  - apply TextFacts.filler_count_no_text.
  - intros wc d. pose proof overflow_bound_pos as Hp. split.
    + intros [r Hr]. destruct (leb d (lit 0 1)) eqn:Ed; [now left | right].
      destruct (Z.lt_ge_cases wc overflow_bound) as [Hb | Hb]; [exact Hb|].
      rewrite words_per_minute_overflow in Hr by assumption. discriminate Hr.
    + intro H. destruct (leb d (lit 0 1)) eqn:Ed.
      * exists None. apply words_per_minute_none. now left.
      * destruct H as [H | H]; [discriminate H|].
        destruct (Z.lt_ge_cases wc 0) as [Hw | Hw].
        -- exists None. apply words_per_minute_none. now right.
        -- eexists. apply words_per_minute_value; [exact Ed | lia].
  - apply normalize_grammar_errors_returns.
  - apply normalize_fillers_returns.
  - intro wer. destruct (normalize_wer_unit wer) as [p [E _]]. now exists p.
  - intro wpm. destruct (fluency_penalty_unit wpm) as [p [E _]]. now exists p.
  - apply calculate_final_score_not_nan.
  - intros. eexists. reflexivity.
Qed.

Lemma core_functions_total_in_float_range_witness :
  TextFeatures.filler_count (pystr "   ") = Ok (0%Z, []).
Proof.
  apply (proj1 (proj2 (proj2 core_functions_total_in_float_range))). reflexivity.
Defined.

(** X1: each of the four penalty functions returns a float between 0.0 and
    1.0: the two count normalisers for counts below [2 ** 1024 - 2 ** 970]
    in absolute value and any word count, [normalize_wer] and
    [fluency_penalty] for every float (negative, infinite, NaN) and for
    [None]. *)
Theorem penalties_between_zero_and_one :
  (forall error_count word_count : Z,
     (Z.abs error_count < overflow_bound)%Z ->
     returns (Scoring64.normalize_grammar_errors error_count word_count)
             (between (lit 0 1) (lit 1 1))) /\
  (forall filler_count word_count : Z,
     (Z.abs filler_count < overflow_bound)%Z ->
     returns (Scoring64.normalize_fillers filler_count word_count)
             (between (lit 0 1) (lit 1 1))) /\
  (forall wer : option float,
     returns (Scoring64.normalize_wer wer) (between (lit 0 1) (lit 1 1))) /\
  (forall wpm : option float,
     returns (Scoring64.fluency_penalty wpm) (between (lit 0 1) (lit 1 1))).
Proof.
  split; [exact normalize_grammar_errors_unit|].
  split; [exact normalize_fillers_unit|].
  split; [exact normalize_wer_unit | exact fluency_penalty_unit].
Qed.

Lemma penalties_between_zero_and_one_witness :
  returns (Scoring64.normalize_grammar_errors 3 50) (between (lit 0 1) (lit 1 1)) /\
  returns (Scoring64.normalize_fillers (-2) 50) (between (lit 0 1) (lit 1 1)).
Proof.
  split.
  - apply (proj1 penalties_between_zero_and_one). vm_compute. reflexivity.
  - apply (proj1 (proj2 penalties_between_zero_and_one)). vm_compute. reflexivity.
Defined.

End Binary64Facts.

(** * The repository's tests, on the embedding

    The assertions of [tests/test_scorer.py], each evaluated on the
    functions above. *)

Module Tests.

Import Scoring.

Open Scope Q_scope.

Ltac run := eexists; split; [reflexivity | repeat split; try reflexivity; discriminate].

Example TestNormalizeGrammarErrors_zero_errors :
  returns (normalize_grammar_errors 0 100) (fun penalty => penalty == 0.0).
Proof. run. Qed.

Example TestNormalizeGrammarErrors_max_errors :
  returns (normalize_grammar_errors 12 100) (fun penalty => penalty == 1.0) /\
  returns (normalize_grammar_errors 20 100) (fun penalty => penalty == 1.0).
Proof. split; run. Qed.

Example TestNormalizeGrammarErrors_intermediate :
  returns (normalize_grammar_errors 6 100) (fun penalty => 0.45 <= penalty <= 0.55).
Proof. run. Qed.

Example TestNormalizeGrammarErrors_zero_words :
  returns (normalize_grammar_errors 5 0) (fun penalty => penalty == 0.0).
Proof. run. Qed.

Example TestNormalizeFillers_zero_fillers :
  returns (normalize_fillers 0 100) (fun penalty => penalty == 0.0).
Proof. run. Qed.

Example TestNormalizeFillers_max_fillers :
  returns (normalize_fillers 8 100) (fun penalty => penalty == 1.0) /\
  returns (normalize_fillers 15 100) (fun penalty => penalty == 1.0).
Proof. split; run. Qed.

Example TestNormalizeFillers_intermediate :
  returns (normalize_fillers 4 100) (fun penalty => 0.45 <= penalty <= 0.55).
Proof. run. Qed.

Example TestNormalizeFillers_scales_with_word_count :
  exists penalty_1 penalty_2,
    normalize_fillers 2 50 = Ok penalty_1 /\
    normalize_fillers 4 100 = Ok penalty_2 /\
    penalty_1 == penalty_2.
Proof. do 2 eexists. repeat split. Qed.

Example TestNormalizeFillers_zero_words :
  returns (normalize_fillers 3 0) (fun penalty => penalty == 0.0).
Proof. run. Qed.

Example TestNormalizeWER_zero_wer :
  returns (normalize_wer (Some 0.0)) (fun penalty => penalty == 0.0).
Proof. run. Qed.

Example TestNormalizeWER_max_wer :
  returns (normalize_wer (Some 0.35)) (fun penalty => penalty == 1.0) /\
  returns (normalize_wer (Some 0.50)) (fun penalty => penalty == 1.0).
Proof. split; run. Qed.

Example TestNormalizeWER_intermediate :
  returns (normalize_wer (Some 0.175)) (fun penalty => 0.45 <= penalty <= 0.55).
Proof. run. Qed.

Example TestNormalizeWER_none_and_negative :
  returns (normalize_wer None) (fun penalty => penalty == 0.0) /\
  returns (normalize_wer (Some (-0.1))) (fun penalty => penalty == 0.0).
Proof. split; run. Qed.

Example TestFluencyPenalty_ideal_wpm :
  fluency_penalty (Some 110.0) = Ok 0.0 /\
  fluency_penalty (Some 140.0) = Ok 0.0 /\
  fluency_penalty (Some 170.0) = Ok 0.0.
Proof. repeat split. Qed.

Example TestFluencyPenalty_very_slow_and_very_fast :
  returns (fluency_penalty (Some 60.0)) (fun penalty => penalty == 1.0) /\
  returns (fluency_penalty (Some 40.0)) (fun penalty => penalty == 1.0) /\
  returns (fluency_penalty (Some 220.0)) (fun penalty => penalty == 1.0) /\
  returns (fluency_penalty (Some 250.0)) (fun penalty => penalty == 1.0).
Proof. repeat split; run. Qed.

Example TestFluencyPenalty_moderate :
  returns (fluency_penalty (Some 90.0)) (fun penalty => 0.2 <= penalty <= 0.6) /\
  returns (fluency_penalty (Some 190.0)) (fun penalty => 0.2 <= penalty <= 0.6).
Proof. split; run. Qed.

Example TestFluencyPenalty_none_zero_negative :
  fluency_penalty None = Ok 0.0 /\
  fluency_penalty (Some 0.0) = Ok 0.0 /\
  fluency_penalty (Some (-50.0)) = Ok 0.0.
Proof. repeat split. Qed.

Example TestCalculateFinalScore_perfect_and_worst :
  calculate_final_score 0.0 0.0 0.0 0.0 == 100.0 /\
  calculate_final_score 1.0 1.0 1.0 1.0 == 0.0.
Proof. split; reflexivity. Qed.

Example TestCalculateFinalScore_never_exceeds_bounds :
  0.0 <= calculate_final_score 2.0 2.0 2.0 2.0 <= 100.0 /\
  0.0 <= calculate_final_score (-1.0) (-1.0) (-1.0) (-1.0) <= 100.0.
Proof. repeat split; discriminate. Qed.

Example TestCalculateFinalScore_grammar_weight_dominates :
  calculate_final_score 1.0 0.0 0.0 0.0 < calculate_final_score 0.0 1.0 0.0 0.0 /\
  100.0 - calculate_final_score 1.0 0.0 0.0 0.0 == 35.0 /\
  100.0 - calculate_final_score 0.0 1.0 0.0 0.0 == 25.0.
Proof. repeat split. Qed.

Example TestCalculateFinalScore_mixed_penalties :
  calculate_final_score 0.3 0.2 0.1 0.0 == 82.5.
Proof. reflexivity. Qed.

Example TestCalculateFinalScore_precision_two_decimals :
  calculate_final_score 0.333 0.333 0.333 0.333 == 66.7.
Proof. reflexivity. Qed.

Example TestClamp01 :
  clamp_01 (-0.5) == 0.0 /\ clamp_01 (-100.0) == 0.0 /\
  clamp_01 1.5 == 1.0 /\ clamp_01 100.0 == 1.0 /\
  clamp_01 0.0 == 0.0 /\ clamp_01 0.5 == 0.5 /\ clamp_01 1.0 == 1.0.
Proof. repeat split. Qed.

Example TestWeightSum :
  WEIGHT_GRAMMAR + WEIGHT_FILLERS + WEIGHT_WER + WEIGHT_FLUENCY == 1.0.
Proof. reflexivity. Qed.

End Tests.

(** * The repository's tests, on the binary64 embedding

    The same assertions, on the floats of the source. *)

Module Tests64.

Import B64 Scoring64.

Ltac run64 := eexists; split; [vm_compute; reflexivity | split; vm_compute; reflexivity].

Example Float_TestNormalizeGrammarErrors :
  normalize_grammar_errors 0 100 = Ok (lit 0 1) /\
  normalize_grammar_errors 12 100 = Ok (lit 1 1) /\
  normalize_grammar_errors 20 100 = Ok (lit 1 1) /\
  returns (normalize_grammar_errors 6 100) (between (lit 45 100) (lit 55 100)) /\
  normalize_grammar_errors 5 0 = Ok (lit 0 1).
Proof. repeat apply conj; first [run64 | vm_compute; reflexivity]. Qed.

Example Float_TestNormalizeGrammarErrors_scales_with_word_count :
  exists penalty_1 penalty_2,
    normalize_grammar_errors 3 50 = Ok penalty_1 /\
    normalize_grammar_errors 6 100 = Ok penalty_2 /\
    ltb (SFabs (sub penalty_1 penalty_2)) (lit 1 100) = true.
Proof.
  do 2 eexists.
  split; [vm_compute; reflexivity|].
  split; [vm_compute; reflexivity|].
  vm_compute. reflexivity.
Qed.

Example Float_TestNormalizeFillers :
  normalize_fillers 0 100 = Ok (lit 0 1) /\
  normalize_fillers 8 100 = Ok (lit 1 1) /\
  normalize_fillers 15 100 = Ok (lit 1 1) /\
  returns (normalize_fillers 4 100) (between (lit 45 100) (lit 55 100)) /\
  normalize_fillers 3 0 = Ok (lit 0 1).
Proof. repeat apply conj; first [run64 | vm_compute; reflexivity]. Qed.

Example Float_TestNormalizeWER :
  normalize_wer (Some (lit 0 1)) = Ok (lit 0 1) /\
  normalize_wer (Some (lit 35 100)) = Ok (lit 1 1) /\
  normalize_wer (Some (lit 50 100)) = Ok (lit 1 1) /\
  returns (normalize_wer (Some (lit 175 1000))) (between (lit 45 100) (lit 55 100)) /\
  normalize_wer None = Ok (lit 0 1) /\
  normalize_wer (Some (lit (-1) 10)) = Ok (lit 0 1).
Proof. repeat apply conj; first [run64 | vm_compute; reflexivity]. Qed.

Example Float_TestFluencyPenalty :
  fluency_penalty (Some (lit 110 1)) = Ok (lit 0 1) /\
  fluency_penalty (Some (lit 140 1)) = Ok (lit 0 1) /\
  fluency_penalty (Some (lit 170 1)) = Ok (lit 0 1) /\
  fluency_penalty (Some (lit 60 1)) = Ok (lit 1 1) /\
  fluency_penalty (Some (lit 40 1)) = Ok (lit 1 1) /\
  fluency_penalty (Some (lit 220 1)) = Ok (lit 1 1) /\
  fluency_penalty (Some (lit 250 1)) = Ok (lit 1 1) /\
  returns (fluency_penalty (Some (lit 90 1))) (between (lit 2 10) (lit 6 10)) /\
  returns (fluency_penalty (Some (lit 190 1))) (between (lit 2 10) (lit 6 10)) /\
  fluency_penalty None = Ok (lit 0 1) /\
  fluency_penalty (Some (lit 0 1)) = Ok (lit 0 1) /\
  fluency_penalty (Some (lit (-50) 1)) = Ok (lit 0 1).
Proof. repeat apply conj; first [run64 | vm_compute; reflexivity]. Qed.

Example Float_TestCalculateFinalScore :
  calculate_final_score (lit 0 1) (lit 0 1) (lit 0 1) (lit 0 1) = lit 100 1 /\
  calculate_final_score (lit 1 1) (lit 1 1) (lit 1 1) (lit 1 1) = lit 0 1 /\
  between (lit 0 1) (lit 100 1) (calculate_final_score (lit 2 1) (lit 2 1) (lit 2 1) (lit 2 1)) /\
  between (lit 0 1) (lit 100 1)
    (calculate_final_score (lit (-1) 1) (lit (-1) 1) (lit (-1) 1) (lit (-1) 1)) /\
  calculate_final_score (lit 1 1) (lit 0 1) (lit 0 1) (lit 0 1) = lit 65 1 /\
  calculate_final_score (lit 0 1) (lit 1 1) (lit 0 1) (lit 0 1) = lit 75 1 /\
  calculate_final_score (lit 3 10) (lit 2 10) (lit 1 10) (lit 0 1) = lit 825 10 /\
  calculate_final_score (lit 333 1000) (lit 333 1000) (lit 333 1000) (lit 333 1000)
  = lit 667 10.
Proof. repeat apply conj; vm_compute; reflexivity. Qed.

Example Float_TestClamp01 :
  clamp_01 (lit (-5) 10) = lit 0 1 /\ clamp_01 (lit (-100) 1) = lit 0 1 /\
  clamp_01 (lit 15 10) = lit 1 1 /\ clamp_01 (lit 100 1) = lit 1 1 /\
  clamp_01 (lit 0 1) = lit 0 1 /\ clamp_01 (lit 5 10) = lit 5 10 /\
  clamp_01 (lit 1 1) = lit 1 1.
Proof. repeat apply conj; vm_compute; reflexivity. Qed.

Example Float_TestWeightSum :
  add (add (add WEIGHT_GRAMMAR WEIGHT_FILLERS) WEIGHT_WER) WEIGHT_FLUENCY = lit 1 1.
Proof. vm_compute. reflexivity. Qed.

End Tests64.

(** * More about [app/scoring.py] *)

Module ScoringExtras.

Import Scoring PyFacts ScoringFacts.

Open Scope Q_scope.

(** *** Rounding is monotone *)

Lemma round_half_even_mono (a b : Q) :
  a <= b -> (Py.round_half_even a <= Py.round_half_even b)%Z.
Proof.
  intro H.
  pose proof (Qfloor_resp_le _ _ H) as Hf.
  destruct (Z.eq_dec (Qfloor a) (Qfloor b)) as [E | N].
  - unfold Py.round_half_even. cbv zeta. rewrite E.
    destruct (Qcompare_spec (a - inject_Z (Qfloor b)) (1 # 2)) as [Ha | Ha | Ha];
    destruct (Qcompare_spec (b - inject_Z (Qfloor b)) (1 # 2)) as [Hb | Hb | Hb];
      try (destruct (Z.even (Qfloor b))); try lia; exfalso; lra.
  - pose proof (round_half_even_floor a). pose proof (round_half_even_floor b). lia.
Qed.

Lemma round_mono (x y : Q) (n : nat) : x <= y -> Py.round x n <= Py.round y n.
Proof.
  intro H. unfold Py.round.
  pose proof (pow10_pos n) as Hp.
  apply div_mono; [exact Hp|].
  rewrite <- Zle_Qle. apply round_half_even_mono.
  apply Qmult_le_compat_r; [exact H | now apply Qlt_le_weak].
Qed.

Lemma min_mono (c x y : Q) : x <= y -> Py.min c x <= Py.min c y.
Proof. intro H. minmax; lra. Qed.

Lemma max_mono (c x y : Q) : x <= y -> Py.max c x <= Py.max c y.
Proof. intro H. minmax; lra. Qed.

(** *** The penalties *)

Lemma zero_rate (w : Z) (cap : Q) :
  0 < cap -> clamp_01 (inject_Z 0 / inject_Z w * 100.0 / cap) == 0.
Proof.
  intro Hc. apply clamp_01_low. change (inject_Z 0) with 0.
  unfold Qdiv. rewrite !Qmult_0_l. apply Qle_refl.
Qed.

(** X2: a transcript without words is not penalised, whatever the counts
    ([word_count <= 0] gives the penalty 0 for grammar and for fillers), and
    neither is a count of zero, whatever the number of words. *)
Theorem no_words_or_no_errors_no_penalty :
  (forall n word_count : Z, (word_count <= 0)%Z ->
     normalize_grammar_errors n word_count = Ok 0.0 /\
     normalize_fillers n word_count = Ok 0.0) /\
  (forall word_count : Z,
     returns (normalize_grammar_errors 0 word_count) (fun p => p == 0) /\
     returns (normalize_fillers 0 word_count) (fun p => p == 0)).
Proof.
  split.
  - intros n w H. unfold normalize_grammar_errors, normalize_fillers.
    apply Z.leb_le in H. now rewrite H.
  - intro w. destruct (Z.leb_spec w 0) as [H | H].
    + unfold normalize_grammar_errors, normalize_fillers.
      apply Z.leb_le in H. rewrite H.
      split; (exists 0.0; split; reflexivity).
    + split; eexists.
      * split; [now apply normalize_grammar_errors_value|].
        now apply zero_rate.
      * split; [now apply normalize_fillers_value|].
        now apply zero_rate.
Qed.

Lemma no_words_or_no_errors_no_penalty_witness :
  normalize_grammar_errors 5 0 = Ok 0.0 /\ normalize_fillers 5 0 = Ok 0.0.
Proof.
  apply (proj1 no_words_or_no_errors_no_penalty). lia.
Defined.

Lemma same_ratio (n w n' w' : Z) :
  (0 < w)%Z -> (0 < w')%Z -> (n * w' = n' * w)%Z ->
  inject_Z n / inject_Z w == inject_Z n' / inject_Z w'.
Proof.
  intros Hw Hw' E.
  pose proof (inject_Z_pos w Hw). pose proof (inject_Z_pos w' Hw').
  assert (Eq' : inject_Z n * inject_Z w' == inject_Z n' * inject_Z w).
  { rewrite <- !inject_Z_mult. now rewrite E. }
  setoid_replace (inject_Z n / inject_Z w)
    with (inject_Z n * inject_Z w' / (inject_Z w * inject_Z w'))
    by (field; split; lra).
  rewrite Eq'. field. split; lra.
Qed.



Lemma rate_in_range (n w : Z) (cap : Z) :
  (0 < w)%Z -> (0 < cap)%Z -> (0 <= n)%Z -> (100 * n <= cap * w)%Z ->
  0 <= inject_Z n / inject_Z w * 100.0 <= inject_Z cap.
Proof.
  intros Hw Hc Hn H. pose proof (inject_Z_pos w Hw) as Hwq.
  rewrite Zle_Qle in Hn, H. rewrite !inject_Z_mult in H.
  change (inject_Z 0) with 0 in Hn. change (inject_Z 100) with 100 in H.
  setoid_replace (inject_Z n / inject_Z w * 100.0)
    with (100 * inject_Z n / inject_Z w) by (field; lra).
  split.
  - apply Qle_shift_div_l; [exact Hwq | nra].
  - apply Qle_shift_div_r; [exact Hwq | exact H].
Qed.

(** X4: below its threshold each penalty is the rate divided by the
    threshold, so it grows linearly: the grammar penalty is
    [(100 e / w) / 12] while the errors are at most 12 per 100 words, the
    filler penalty [(100 f / w) / 8] while the fillers are at most 8 per 100
    words, and the WER penalty [wer / 0.35] for [0 <= wer <= 0.35]. *)
Theorem penalties_linear_below_threshold :
  (forall e w : Z, (0 < w)%Z -> (0 <= e)%Z -> (100 * e <= 12 * w)%Z ->
     returns (normalize_grammar_errors e w)
             (fun p => p == inject_Z (100 * e) / inject_Z w / 12)) /\
  (forall f w : Z, (0 < w)%Z -> (0 <= f)%Z -> (100 * f <= 8 * w)%Z ->
     returns (normalize_fillers f w)
             (fun p => p == inject_Z (100 * f) / inject_Z w / 8)) /\
  (forall wer : Q, 0 <= wer <= 0.35 ->
     returns (normalize_wer (Some wer)) (fun p => p == wer / 0.35)).
Proof.
  split; [|split].
  - intros e w Hw He H. eexists.
    split; [now apply normalize_grammar_errors_value|].
    pose proof (inject_Z_pos w Hw) as Hwq.
    rewrite clamp_div_id; [|reflexivity|].
    + unfold MAX_GRAMMAR_ERRORS_PER_100. rewrite inject_Z_mult.
      change (inject_Z 100) with 100. field. lra.
    + destruct (rate_in_range e w 12) as [A B]; try lia.
      split; [exact A|]. unfold MAX_GRAMMAR_ERRORS_PER_100.
      setoid_replace 12.0 with (inject_Z 12) by reflexivity. exact B.
  - intros f w Hw Hf H. eexists.
    split; [now apply normalize_fillers_value|].
    pose proof (inject_Z_pos w Hw) as Hwq.
    rewrite clamp_div_id; [|reflexivity|].
    + unfold MAX_FILLERS_PER_100. rewrite inject_Z_mult.
      change (inject_Z 100) with 100. field. lra.
    + destruct (rate_in_range f w 8) as [A B]; try lia.
      split; [exact A|]. unfold MAX_FILLERS_PER_100.
      setoid_replace 8.0 with (inject_Z 8) by reflexivity. exact B.
  - intros wer [H0 H1]. eexists.
    split; [now apply normalize_wer_value|].
    apply clamp_div_id; [reflexivity | split; assumption].
Qed.

Lemma penalties_linear_below_threshold_witness :
  returns (normalize_grammar_errors 3 100) (fun p => p == inject_Z (100 * 3) / inject_Z 100 / 12) /\
  returns (normalize_fillers 2 100) (fun p => p == inject_Z (100 * 2) / inject_Z 100 / 8) /\
  returns (normalize_wer (Some 0.1)) (fun p => p == 0.1 / 0.35).
Proof.
  destruct penalties_linear_below_threshold as (G & F & W).
  split; [apply G; lia|]. split; [apply F; lia|].
  apply W. split; discriminate.
Defined.

(** *** The fluency penalty *)



Lemma fluency_low_value (wpm : Q) :
  0 < wpm -> wpm <= 110 ->
  returns (fluency_penalty (Some wpm)) (fun p => p == clamp_01 ((110 - wpm) / 50)).
Proof.
  intros H0 H1. destruct (Qlt_le_dec wpm 110) as [H | H].
  - eexists. split; [now apply fluency_penalty_slow|].
    apply clamp_01_compat. unfold IDEAL_WPM_MIN, VERY_SLOW_WPM.
    apply Qdiv_comp; [ring | reflexivity].
  - exists 0.0. split; [apply fluency_penalty_ideal; lra|].
    rewrite clamp_01_low; [reflexivity|].
    apply Qle_shift_div_r; [reflexivity | lra].
Qed.

Lemma fluency_high_value (wpm : Q) :
  170 <= wpm ->
  returns (fluency_penalty (Some wpm)) (fun p => p == clamp_01 ((wpm - 170) / 50)).
Proof.
  intros H1. destruct (Qlt_le_dec 170 wpm) as [H | H].
  - eexists. split; [now apply fluency_penalty_fast|].
    apply clamp_01_compat. unfold IDEAL_WPM_MAX, VERY_FAST_WPM.
    apply Qdiv_comp; [ring | reflexivity].
  - exists 0.0. split; [apply fluency_penalty_ideal; lra|].
    rewrite clamp_01_low; [reflexivity|].
    apply Qle_shift_div_r; [reflexivity | lra].
Qed.

(** X6: away from the ideal band the fluency penalty never gets better:
    among positive rates up to 110 a slower rate has at least the penalty
    of a faster one, and among rates from 170 on a faster rate has at least
    the penalty of a slower one. *)
Theorem fluency_penalty_monotone_outside_band (a b : Q) :
  a <= b ->
  (0 < a -> b <= 110 ->
   exists pa pb, fluency_penalty (Some a) = Ok pa /\
                 fluency_penalty (Some b) = Ok pb /\ pb <= pa) /\
  (170 <= a ->
   exists pa pb, fluency_penalty (Some a) = Ok pa /\
                 fluency_penalty (Some b) = Ok pb /\ pa <= pb).
Proof.
  intro Hab. split.
  - intros Ha Hb.
    destruct (fluency_low_value a) as [pa [Ea Va]]; [lra | lra|].
    destruct (fluency_low_value b) as [pb [Eb Vb]]; [lra | lra|].
    exists pa, pb. split; [exact Ea|]. split; [exact Eb|].
    rewrite Va, Vb. apply clamp_div_mono; [reflexivity | lra].
  - intros Ha.
    destruct (fluency_high_value a) as [pa [Ea Va]]; [lra|].
    destruct (fluency_high_value b) as [pb [Eb Vb]]; [lra|].
    exists pa, pb. split; [exact Ea|]. split; [exact Eb|].
    rewrite Va, Vb. apply clamp_div_mono; [reflexivity | lra].
Qed.

Lemma fluency_penalty_monotone_outside_band_witness :
  (exists pa pb, fluency_penalty (Some 70) = Ok pa /\
                 fluency_penalty (Some 100) = Ok pb /\ pb <= pa) /\
  (exists pa pb, fluency_penalty (Some 180) = Ok pa /\
                 fluency_penalty (Some 210) = Ok pb /\ pa <= pb).
Proof.
  split.
  - apply (proj1 (fluency_penalty_monotone_outside_band 70 100 ltac:(discriminate)));
      [reflexivity | discriminate].
  - apply (proj2 (fluency_penalty_monotone_outside_band 180 210 ltac:(discriminate)));
      discriminate.
Defined.

(** *** The final score *)

(** X7: a larger penalty never gives a better score: the final score does
    not increase when any of the four penalties increases. *)
Theorem calculate_final_score_antitone (g f w fl g' f' w' fl' : Q) :
  g <= g' -> f <= f' -> w <= w' -> fl <= fl' ->
  calculate_final_score g' f' w' fl' <= calculate_final_score g f w fl.
Proof.
  intros Hg Hf Hw Hfl. unfold calculate_final_score.
  apply round_mono. apply max_mono. apply min_mono.
  unfold WEIGHT_GRAMMAR, WEIGHT_FILLERS, WEIGHT_WER, WEIGHT_FLUENCY. lra.
Qed.

Lemma calculate_final_score_antitone_witness :
  calculate_final_score 0.5 0.2 0.1 0.3 <= calculate_final_score 0.25 0.2 0 0.3.
Proof.
  apply calculate_final_score_antitone; discriminate.
Defined.

(** X8: the final score is a whole number of hundredths between 0 and 100:
    it is [k / 100] for an integer [0 <= k <= 10000], whatever the
    penalties. *)
Theorem calculate_final_score_two_decimals (g f w fl : Q) :
  exists k : Z, (0 <= k <= 10000)%Z /\
                calculate_final_score g f w fl == inject_Z k / 100.
Proof.
  pose proof (calculate_final_score_range g f w fl) as [H0 H1].
  unfold calculate_final_score in *.
  set (score := Py.max 0.0 (Py.min 100.0 _)) in *.
  unfold Py.round in *. change (inject_Z (10 ^ Z.of_nat 2)) with 100 in *.
  exists (Py.round_half_even (score * 100)). split; [|reflexivity].
  set (k := Py.round_half_even (score * 100)) in *.
  unfold Qdiv in H0, H1.
  setoid_replace (/ 100) with (1 # 100) in H0 by reflexivity.
  setoid_replace (/ 100) with (1 # 100) in H1 by reflexivity.
  split; rewrite Zle_Qle.
  - change (inject_Z 0) with 0. lra.
  - change (inject_Z 10000) with 10000. lra.
Qed.

(** X9: without a WER the score cannot fall below 20: the WER penalty of a
    missing WER is 0, and the three other penalties, each at most 1, take
    away at most 35 + 25 + 20 points; with the penalties for counts within
    the range of the floats (below [2 ** 1024 - 2 ** 970] in absolute
    value; beyond, the division of the counts raises) and any speaking
    rate, the score is between 20 and 100. *)
Theorem score_without_wer_at_least_20_in_float_range
    (error_count filler_count word_count : Z) (wpm : option Q) :
  (Z.abs error_count < B64.overflow_bound)%Z ->
  (Z.abs filler_count < B64.overflow_bound)%Z ->
  exists grammar_p filler_p wer_p fluency_p,
    normalize_grammar_errors error_count word_count = Ok grammar_p /\
    normalize_fillers filler_count word_count = Ok filler_p /\
    normalize_wer None = Ok wer_p /\
    fluency_penalty wpm = Ok fluency_p /\
    20 <= calculate_final_score grammar_p filler_p wer_p fluency_p <= 100.
Proof.
  intros _ _.
  destruct (normalize_grammar_errors_total error_count word_count) as [g [Eg Hg]].
  destruct (normalize_fillers_total filler_count word_count) as [f [Ef Hf]].
  destruct (fluency_penalty_total wpm) as [fl [Efl Hfl]].
  exists g, f, 0.0, fl. repeat split; try assumption.
  - unfold calculate_final_score. apply (round_between 20 100). unfold inject_Z.
    unfold WEIGHT_GRAMMAR, WEIGHT_FILLERS, WEIGHT_WER, WEIGHT_FLUENCY.
    minmax; lra.
  - apply calculate_final_score_range.
Qed.

Lemma score_without_wer_at_least_20_in_float_range_witness :
  exists grammar_p filler_p wer_p fluency_p,
    normalize_grammar_errors 30 100 = Ok grammar_p /\
    normalize_fillers 20 100 = Ok filler_p /\
    normalize_wer None = Ok wer_p /\
    fluency_penalty (Some 40) = Ok fluency_p /\
    20 <= calculate_final_score grammar_p filler_p wer_p fluency_p <= 100.
Proof.
  apply score_without_wer_at_least_20_in_float_range; vm_compute; reflexivity.
Defined.

End ScoringExtras.

(** * More about [app/text_features.py] *)

Module NormalizeExtras.

Import Re Passes ReFacts TextFeatures NormalizeFacts.

Lemma spaced_onepass (s : str) : spaced s = true -> onepass false false s = s.
Proof.
  induction s as [|c s IH]; [reflexivity|].
  cbn [spaced]. intro H. apply andb_prop in H as [Hc Hs].
  specialize (IH Hs). cbn [onepass].
  destruct (Chars.isspace c) eqn:Ec; [|cbn [negb andb]; now rewrite IH].
  apply andb_prop in Hc as [Hsp Hnext]. apply Ascii.eqb_eq in Hsp. subst c.
  destruct s as [|d s]; [discriminate|].
  apply andb_prop in Hnext as [Hd Hp]. apply negb_true_iff in Hd.
  cbn [onepass] in *. rewrite Hd in *. rewrite Hp. cbn [negb andb] in *.
  now rewrite IH.
Qed.

Lemma tidy_onepass (s : str) :
  spaced s = true ->
  (forall a l, s = a :: l -> Chars.isspace a = false) ->
  onepass true false s = s.
Proof.
  intros Hs Hh. destruct s as [|c s]; [reflexivity|].
  cbn [onepass]. rewrite (Hh c s eq_refl). cbn [negb andb].
  cbn [spaced] in Hs. apply andb_prop in Hs as [_ Hs].
  now rewrite spaced_onepass.
Qed.

(** X10: normalising twice is normalising once: the text
    [normalize_transcript] returns is returned unchanged when it is
    normalised again. *)
Theorem normalize_transcript_idempotent (text t : str) :
  normalize_transcript text = Ok t -> normalize_transcript t = Ok t.
Proof.
  rewrite !normalize_transcript_onepass. intro H. injection H as <-.
  f_equal. apply tidy_onepass; [apply onepass_spaced|].
  intros a l. apply onepass_first_head.
Qed.

Lemma normalize_transcript_idempotent_witness :
  normalize_transcript (pystr "Hello world, again.") = Ok (pystr "Hello world, again.").
Proof.
  apply (normalize_transcript_idempotent (pystr "  Hello   world ,  again . ")).
  reflexivity.
Defined.

Lemma tidy_spaced (t : str) :
  (forall c, In c t -> Chars.isspace c = true -> c = " "%char) ->
  (forall l a, t = l ++ [a] -> Chars.isspace a = false) ->
  (forall l1 a b l2, t = l1 ++ a :: b :: l2 -> Chars.isspace a = true ->
                     Chars.isspace b = false /\ Spec.ispunct b = false) ->
  spaced t = true.
Proof.
  induction t as [|c s IH]; intros Hin Hlast Hadj; [reflexivity|].
  cbn [spaced]. apply andb_true_intro. split.
  - destruct (Chars.isspace c) eqn:Ec; [|reflexivity].
    rewrite (Hin c (or_introl eq_refl) Ec). cbn [Ascii.eqb].
    destruct s as [|d s].
    + rewrite (Hlast [] c eq_refl) in Ec. discriminate.
    + destruct (Hadj [] c d s eq_refl Ec) as [Hd Hp]. now rewrite Hd, Hp.
  - apply IH.
    + intros d Hd. apply Hin. now right.
    + intros l a ->. apply (Hlast (c :: l) a). reflexivity.
    + intros l1 a d l2 ->. apply (Hadj (c :: l1) a d l2). reflexivity.
Qed.

(** X11: the texts [normalize_transcript] leaves unchanged are exactly the
    tidy ones: those whose whitespace characters are single spaces, none
    first or last and none in front of whitespace or of one of
    [. , ! ? ; :]. *)
Theorem normalize_transcript_fixed_points (text : str) :
  normalize_transcript text = Ok text <-> Spec.tidy text.
Proof.
  rewrite normalize_transcript_onepass. split.
  - intro H. injection H as H. rewrite <- H.
    apply spaced_tidy; [apply onepass_spaced|].
    intros a l. apply onepass_first_head.
  - intros (Hin & Hhead & Hlast & Hadj). f_equal.
    apply tidy_onepass; [now apply tidy_spaced | exact Hhead].
Qed.

Lemma onepass_length (f g : bool) (s : str) :
  (List.length (onepass f g s) <= List.length s + (if g then 1 else 0))%nat.
Proof.
  revert f g. induction s as [|c s IH]; intros f g; [destruct g; cbn; lia|].
  cbn [onepass]. destruct (Chars.isspace c).
  - specialize (IH f true). cbn [List.length] in *. destruct g; lia.
  - specialize (IH false false). cbn [List.length] in *.
    destruct f, g; cbn [negb andb]; try destruct (Spec.ispunct c);
      cbn [negb List.length]; lia.
Qed.

(** X12: [normalize_transcript] never makes a text longer. *)
Theorem normalize_transcript_not_longer (text : str) :
  returns (normalize_transcript text)
          (fun t => (List.length t <= List.length text)%nat).
Proof.
  eexists. split; [apply normalize_transcript_onepass|].
  pose proof (onepass_length true false text) as H. cbv beta iota in H. lia.
Qed.

End NormalizeExtras.

Module FillerExtras.

Import Re Passes ReFacts TextFeatures TextFacts.

(** *** Case *)

Lemma lower_idem (c : ascii) : Chars.lower (Chars.lower c) = Chars.lower c.
Proof.
  destruct c as [[] [] [] [] [] [] [] []]; vm_compute; reflexivity.
Qed.

Lemma isspace_lower (c : ascii) : Chars.isspace (Chars.lower c) = Chars.isspace c.
Proof.
  destruct c as [[] [] [] [] [] [] [] []]; vm_compute; reflexivity.
Qed.

Lemma lstrip_lower (s : str) : Str.lstrip (Str.lower s) = Str.lower (Str.lstrip s).
Proof.
  induction s as [|c s IH]; [reflexivity|].
  cbn [Str.lower map Str.lstrip]. rewrite isspace_lower.
  destruct (Chars.isspace c); [exact IH | reflexivity].
Qed.

Lemma rev_lower (s : str) : rev (Str.lower s) = Str.lower (rev s).
Proof. unfold Str.lower. symmetry. apply map_rev. Qed.

Lemma strip_lower (s : str) : Str.strip (Str.lower s) = Str.lower (Str.strip s).
Proof.
  unfold Str.strip, Str.rstrip.
  now rewrite lstrip_lower, rev_lower, lstrip_lower, rev_lower.
Qed.

Lemma no_text_lower (s : str) : no_text (Str.lower s) = no_text s.
Proof.
  unfold no_text. rewrite strip_lower.
  destruct s as [|c s]; [reflexivity|].
  cbn [Str.lower map Str.falsy orb].
  destruct (Str.strip (c :: s)); reflexivity.
Qed.

(** X13: [filler_count] does not look at the case of the text: two texts
    with the same lower-case form have the same count and the same list of
    occurrences. *)
Theorem filler_count_case_insensitive (text1 text2 : str) :
  Str.lower text1 = Str.lower text2 -> filler_count text1 = filler_count text2.
Proof.
  intro H. unfold filler_count.
  rewrite <- (no_text_lower text1), <- (no_text_lower text2), H.
  reflexivity.
Qed.

Lemma filler_count_case_insensitive_witness :
  filler_count (pystr "UM, You Know, like") = filler_count (pystr "um, you know, LIKE").
Proof.
  apply filler_count_case_insensitive. reflexivity.
Defined.

(** *** What a match covers *)

Lemma consume_some (c : ascii) (r : option hit) (m : str) (gs : list str) :
  consume c r = Some (m, gs) -> exists m', m = c :: m' /\ r = Some (m', gs).
Proof.
  destruct r as [[m' gs']|]; [|discriminate].
  cbn. intro H. injection H as <- <-. now exists m'.
Qed.

Lemma capture_some (c : ascii) (r : option hit) (m : str) (gs : list str) :
  capture c r = Some (m, gs) ->
  exists m' gs', m = c :: m' /\ r = Some (m', gs').
Proof.
  destruct r as [[m' gs']|]; [|discriminate].
  cbn. intro H. injection H as <- <-. now exists m', gs'.
Qed.

(** A match covers a prefix of the text it is tried on. *)
Lemma match_here_prefix (ic : bool) (re : pattern) :
  forall (prev : option ascii) (s m : str) (gs : list str),
    match_here ic re prev s = Some (m, gs) -> exists r, s = m ++ r.
Proof.
  induction re as [|i re IH]; intros prev s m gs H.
  - cbn in H. injection H as <- <-. now exists s.
  - destruct i as [k | k | k |].
    + cbn [match_here] in H. destruct s as [|c s]; [discriminate|].
      destruct (cls_match ic k c); [|discriminate].
      apply consume_some in H as [m' [-> H]].
      apply IH in H as [r ->]. now exists r.
    + revert prev m gs H. induction s as [|c s IHs]; intros prev m gs H.
      * discriminate.
      * rewrite match_here_plus_cons in H.
        destruct (cls_match ic k c); [|discriminate].
        destruct (match_here ic (Plus k :: re) (Some c) s) as [[m1 g1]|] eqn:E.
        -- cbn in H. injection H as <- <-.
           destruct (IHs (Some c) m1 g1 E) as [r ->]. now exists r.
        -- apply consume_some in H as [m' [-> H]].
           apply IH in H as [r ->]. now exists r.
    + cbn [match_here] in H. destruct s as [|c s]; [discriminate|].
      destruct (cls_match ic k c); [|discriminate].
      apply capture_some in H as [m' [gs' [-> H]]].
      apply IH in H as [r ->]. now exists r.
    + cbn [match_here] in H. destruct (word_boundary prev s); [|discriminate].
      now apply IH in H.
Qed.

(** Every match the scan reports is a non-empty piece of the text. *)
Lemma scan_hit_chars (ic : bool) (re : pattern) (s : str) :
  forall (prev : option ascii) (skip : nat) (m : str) (gs : list str),
    In (Hit (m, gs)) (scan ic re prev s skip) ->
    m <> [] /\ forall c, In c m -> In c s.
Proof.
  induction s as [|c s IH]; intros prev skip m gs H; [contradiction|].
  assert (Tail : forall p k, In (Hit (m, gs)) (scan ic re p s k) ->
                             m <> [] /\ forall x, In x m -> In x (c :: s)).
  { intros p k Hk. destruct (IH p k m gs Hk) as [Hne Hin].
    split; [exact Hne|]. intros x Hx. right. now apply Hin. }
  destruct skip as [|k]; [|rewrite scan_cons_skip in H; now apply (Tail _ _ H)].
  destruct (match_here ic re prev (c :: s)) as [[[|d m'] gs']|] eqn:E.
  - cbn [scan] in H. rewrite E in H.
    destruct H as [H | H]; [discriminate | now apply (Tail _ _ H)].
  - rewrite (scan_cons_hit _ _ _ _ _ _ _ _ E) in H.
    destruct H as [H | H]; [|now apply (Tail _ _ H)].
    injection H as <- <-. split; [discriminate|].
    apply match_here_prefix in E as [r E]. injection E as _ E.
    intros x [<- | Hx]; [now left|]. right. rewrite E. apply in_or_app. now left.
  - rewrite (scan_cons_miss _ _ _ _ _ E) in H.
    destruct H as [H | H]; [discriminate | now apply (Tail _ _ H)].
Qed.

Lemma findall_chars (ic : bool) (re : pattern) (text f : str) :
  In f (findall ic re text) -> f <> [] /\ forall c, In c f -> In c text.
Proof.
  unfold findall. rewrite in_flat_map. intros [p [Hp Hf]].
  destruct p as [c | [m gs]]; [contradiction|].
  destruct Hf as [<- | []]. now apply scan_hit_chars in Hp.
Qed.

Lemma in_lstrip (s : str) (c : ascii) : In c (Str.lstrip s) -> In c s.
Proof.
  induction s as [|d s IH]; [trivial|].
  cbn [Str.lstrip]. destruct (Chars.isspace d); [|trivial].
  intro H. right. now apply IH.
Qed.

Lemma in_strip (s : str) (c : ascii) : In c (Str.strip s) -> In c s.
Proof.
  unfold Str.strip, Str.rstrip. intro H.
  apply in_rev in H. apply in_lstrip in H. apply in_rev in H.
  now apply in_lstrip.
Qed.

Lemma in_collapse (b : bool) (s : str) (c : ascii) :
  In c (collapse b s) -> c = " "%char \/ In c s.
Proof.
  revert b. induction s as [|d s IH]; intro b; [contradiction|].
  cbn [collapse]. destruct (Chars.isspace d).
  - destruct b.
    + intro H. destruct (IH _ H); [now left | right; now right].
    + intros [<- | H]; [now left|]. destruct (IH _ H); [now left | right; now right].
  - intros [<- | H]; [right; now left|].
    destruct (IH _ H); [now left | right; now right].
Qed.

(** X14: the occurrences [filler_count] lists are never empty and are in
    lower case, whatever the case of the text, and the count is the number
    of occurrences listed. *)
Theorem filler_count_occurrences (text : str) :
  returns (filler_count text) (fun r =>
    fst r = Z.of_nat (List.length (snd r)) /\
    forall f, In f (snd r) -> f <> [] /\ Str.lower f = f).
Proof.
  destruct (no_text text) eqn:E.
  - exists (0%Z, []). split; [now apply filler_count_no_text|].
    split; [reflexivity | contradiction].
  - eexists. split; [now apply filler_count_value|].
    split; [reflexivity|]. cbn [snd]. intros f Hf.
    apply in_flat_map in Hf as [p [_ Hf]].
    apply findall_chars in Hf as [Hne Hin]. split; [exact Hne|].
    unfold Str.lower. rewrite <- (map_id f) at 2. apply map_ext_in.
    intros c Hc. apply Hin in Hc. apply in_collapse in Hc as [-> | Hc]; [reflexivity|].
    apply in_strip in Hc. unfold Str.lower in Hc.
    apply in_map_iff in Hc as [d [<- _]]. apply lower_idem.
Qed.

End FillerExtras.
